(** * xds-relay: the response cache and the orchestrator's watch protocol

    A shallow embedding of [internal/app/cache/cache.go] and of the part of
    [github.com/golang/groupcache/lru] it is built on, followed by the
    properties of the cache that the specification states.

    Conventions of the embedding.
    - A [time.Time] is an integer count of nanoseconds since the zero
      instant, so [Time.IsZero t] is [t = 0]; a [time.Duration] is an
      integer count of nanoseconds.
    - A [*v2.DiscoveryRequest] is used by the cache for its identity only:
      it is a [Handle], an address.
    - A Go map may be [nil]; [Requests] is an [option (gmap Handle bool)].
      Each map built by [make] is stored in one cache entry only, so the
      cache state is described by map values; a [Resource] handed out by an
      operation describes the map as it is when the operation returns.
    - Every call of [time.Now()] is an argument of the operation making it.
    - [MaxEntries], a Go [int], and the durations are integers; the cache
      compares them and adds a duration to a time, nothing that overflows in
      the range of [time.Time].
    - Each operation runs alone, as under the mutex [cacheMu]; [Fetch], which
      takes the lock twice, is its two critical sections in sequence.
    - The user's [onEvicted] callback is recorded: each call appends the key
      and the value it receives to [evictions].
    - A Go panic raised by the cache itself is the outcome [Panic]. *)

From Stdlib Require Import ZArith Lia.
From stdpp Require Import gmap strings list.

Local Open Scope Z_scope.

(** ** Data *)

Abbreviation Handle := positive (only parsing).

Module time.
Abbreviation Time := Z (only parsing).
Abbreviation Duration := Z (only parsing).
(** [time.Time{}] *)
Definition Zero : Time := 0.
Definition IsZero (t : Time) : bool := t =? 0.
Definition Before (t u : Time) : bool := t <? u.
Definition Add (t : Time) (d : Duration) : Time := t + d.
End time.

(** [v2.DiscoveryResponse]: opaque to the cache. *)
Record DiscoveryResponse := mkResponse {
  VersionInfo : string;
  Resources : list string;
  Canary : bool;
  TypeUrl : string;
  Nonce : string
}.

Record Resource := mkResource {
  Resp : option DiscoveryResponse;
  Requests : option (gmap Handle bool);
  ExpirationTime : time.Time
}.

(** [Resource{}] *)
Definition zeroResource : Resource :=
  {| Resp := None; Requests := None; ExpirationTime := time.Zero |}.

(** The errors built with [fmt.Errorf]. *)
Inductive error :=
| ErrNegativeTTL (ttl : time.Duration)   (* ttl must be nonnegative but was set to %v *)
| ErrNoValue (key : string)         (* no value found for key: %s *)
| ErrCast (key : string).           (* unable to cast cache value to type resource for key: %s *)

Definition is_notFound (e : option error) : bool :=
  match e with Some (ErrNoValue _) => true | _ => false end.

Definition is_typeMismatch (e : option error) : bool :=
  match e with Some (ErrCast _) => true | _ => false end.

(** ** groupcache's LRU cache

  [lru.Cache] keeps a doubly linked list of entries, most recently used
  first, and a map from keys to list elements.  Here it is the list alone,
  looked up by key.  [removeElement] calls [OnEvicted] as its last action,
  and it is the last action of [Add], [Remove] and [RemoveOldest]: these
  return the entry handed to the callback, for the caller to run it. *)
Module lru.

(** [lru.Key] and the stored values are [interface{}]: what matters to the
    cache is whether the dynamic type is [string], resp. [Resource]. *)
Inductive Key := KString (s : string) | KOther (n : nat).
Inductive Value := VResource (r : Resource) | VOther (n : nat).

#[global] Instance Key_eq_dec : EqDecision Key.
Proof. solve_decision. Defined.

Record Cache := mkCache {
  MaxEntries : Z;
  ll : list (Key * Value)
}.

Fixpoint lookup (key : Key) (l : list (Key * Value)) : option Value :=
  match l with
  | [] => None
  | e :: l' => if decide (e.1 = key) then Some e.2 else lookup key l'
  end.

Definition without (key : Key) (l : list (Key * Value)) : list (Key * Value) :=
  filter (λ e, e.1 ≠ key) l.

(** [Get]: a hit moves the element to the front. *)
Definition Get (c : Cache) (key : Key) : Cache * option Value :=
  match lookup key (ll c) with
  | Some v => (mkCache (MaxEntries c) ((key, v) :: without key (ll c)), Some v)
  | None => (c, None)
  end.

(** [removeElement] on the element of [key]. *)
Definition Remove (c : Cache) (key : Key) : Cache * option (Key * Value) :=
  match lookup key (ll c) with
  | Some v => (mkCache (MaxEntries c) (without key (ll c)), Some (key, v))
  | None => (c, None)
  end.

(** [removeElement] on [ll.Back()]. *)
Definition RemoveOldest (c : Cache) : Cache * option (Key * Value) :=
  match last (ll c) with
  | Some e => (mkCache (MaxEntries c) (removelast (ll c)), Some e)
  | None => (c, None)
  end.

Definition Len (c : Cache) : Z := Z.of_nat (length (ll c)).

Definition Add (c : Cache) (key : Key) (value : Value) : Cache * option (Key * Value) :=
  match lookup key (ll c) with
  | Some _ => (mkCache (MaxEntries c) ((key, value) :: without key (ll c)), None)
  | None =>
      let c' := mkCache (MaxEntries c) ((key, value) :: ll c) in
      if negb (MaxEntries c' =? 0) && (MaxEntries c' <? Len c')
      then RemoveOldest c'
      else (c', None)
  end.

End lru.

Export lru (Key, KString, KOther, Value, VResource, VOther).

(** ** The cache *)

Record cache := mkcache {
  cache_ : lru.Cache;        (* the field [cache] *)
  ttl : time.Duration
}.

(** The cache together with the calls its [onEvicted] callback has received,
    oldest first. *)
Record world := mkWorld {
  self : cache;
  evictions : list (string * Resource)
}.

Inductive res (A : Type) :=
| Done (a : A)
| Panic (msg : string).
Arguments Done {A} a.
Arguments Panic {A} msg.

Definition M (A : Type) : Type := world → res (A * world).

#[global] Instance M_ret : MRet M := λ A a w, Done (a, w).
#[global] Instance M_bind : MBind M := λ A B f m w,
  match m w with
  | Done (a, w') => f a w'
  | Panic msg => Panic msg
  end.

Definition panic {A} (msg : string) : M A := λ _, Panic msg.

(** The user's callback. *)
Definition onEvicted (key : string) (value : Resource) : M unit :=
  λ w, Done ((), mkWorld (self w) (evictions w ++ [(key, value)])).

(** The closure installed as [lru.Cache.OnEvicted] by [NewCache]. *)
Definition OnEvicted (cacheKey : Key) (cacheValue : Value) : M unit :=
  match cacheKey with
  | KOther _ => panic "Unable to cast key to string upon eviction"
  | KString key =>
      match cacheValue with
      | VOther _ => panic "Unable to cast value to resource upon eviction"
      | VResource value => onEvicted key value
      end
  end.

Definition NewCache (maxEntries : Z) (ttl : time.Duration) : option cache * option error :=
  if ttl <? 0 then (None, Some (ErrNegativeTTL ttl))
  else (Some (mkcache (lru.mkCache maxEntries []) ttl), None).

(** The calls [c.cache.Get], [c.cache.Add] and [c.cache.Remove]. *)
Definition with_lru {A} (f : lru.Cache → lru.Cache * A) : M A :=
  λ w, let '(l, a) := f (cache_ (self w)) in
       Done (a, mkWorld (mkcache l (ttl (self w))) (evictions w)).

Definition run_evicted (e : option (Key * Value)) : M unit :=
  match e with
  | Some (k, v) => OnEvicted k v
  | None => mret ()
  end.

Definition cache_Get (key : string) : M (option Value) :=
  with_lru (λ l, lru.Get l (KString key)).

Definition cache_Add (key : string) (value : Resource) : M unit :=
  with_lru (λ l, lru.Add l (KString key) (VResource value)) ≫= run_evicted.

Definition cache_Remove (key : string) : M unit :=
  with_lru (λ l, lru.Remove l (KString key)) ≫= run_evicted.

Definition isExpired (r : Resource) (currentTime : time.Time) : bool :=
  if time.IsZero (ExpirationTime r) then false
  else time.Before (ExpirationTime r) currentTime.

Definition getExpirationTime (c : cache) (currentTime : time.Time) : time.Time :=
  if 0 <? ttl c then time.Add currentTime (ttl c) else time.Zero.

Definition expirationTime (currentTime : time.Time) : M time.Time :=
  λ w, Done (getExpirationTime (self w) currentTime, w).

(** [Fetch]; [now1] and [now2] are the readings of the clock at the first and
    at the second test for expiration. *)
Definition Fetch (key : string) (now1 now2 : time.Time) : M (option Resource * option error) :=
  value ← cache_Get key;
  match value with
  | None => mret (None, Some (ErrNoValue key))
  | Some (VOther _) => mret (None, Some (ErrCast key))
  | Some (VResource resource) =>
      if isExpired resource now1 then
        value ← cache_Get key;
        match value with
        | None => mret (None, None)
        | Some (VOther _) => mret (None, Some (ErrCast key))
        | Some (VResource resource) =>
            if isExpired resource now2 then
              cache_Remove key;; mret (None, None)
            else mret (Some resource, None)
        end
      else mret (Some resource, None)
  end.

Definition FetchReadOnly (key : string) (now1 now2 : time.Time) : M (Resource * option error) :=
  '(resource, err) ← Fetch key now1 now2;
  match resource with
  | None => mret (zeroResource, err)
  | Some resource => mret (resource, err)
  end.

(** [GetReadOnlyCache] returns the cache itself behind the narrower
    interface. *)
Definition GetReadOnlyCache (c : cache) : cache := c.

Definition SetResponse (key : string) (response : DiscoveryResponse) (now : time.Time)
  : M (option (gmap Handle bool) * option error) :=
  value ← cache_Get key;
  match value with
  | None =>
      exp ← expirationTime now;
      let resource := {| Resp := Some response; ExpirationTime := exp; Requests := Some ∅ |} in
      cache_Add key resource;;
      mret (None, None)
  | Some (VOther _) => mret (None, Some (ErrCast key))
  | Some (VResource resource) =>
      exp ← expirationTime now;
      let resource := {| Resp := Some response; Requests := Requests resource;
                         ExpirationTime := exp |} in
      cache_Add key resource;;
      mret (Requests resource, None)
  end.

Definition AddRequest (key : string) (req : Handle) (now : time.Time) : M (option error) :=
  value ← cache_Get key;
  match value with
  | None =>
      let requests : gmap Handle bool := <[req:=true]> ∅ in
      exp ← expirationTime now;
      let resource := {| Resp := None; Requests := Some requests; ExpirationTime := exp |} in
      cache_Add key resource;;
      mret None
  | Some (VOther _) => mret (Some (ErrCast key))
  | Some (VResource resource) =>
      match Requests resource with
      | None => panic "assignment to entry in nil map"
      | Some requests =>
          let resource := {| Resp := Resp resource; Requests := Some (<[req:=true]> requests);
                             ExpirationTime := ExpirationTime resource |} in
          cache_Add key resource;;
          mret None
      end
  end.

Definition DeleteRequest (key : string) (req : Handle) : M (option error) :=
  value ← cache_Get key;
  match value with
  | None => mret None
  | Some (VOther _) => mret (Some (ErrCast key))
  | Some (VResource resource) =>
      let resource := {| Resp := Resp resource; Requests := delete req <$> Requests resource;
                         ExpirationTime := ExpirationTime resource |} in
      cache_Add key resource;;
      mret None
  end.

(** ** Reading a state *)

Definition entries (w : world) : list (Key * Value) := lru.ll (cache_ (self w)).

(** The value stored under [key], if any. *)
Definition entryOf (key : string) (w : world) : option Value :=
  lru.lookup (KString key) (entries w).

Definition set_ll (l : list (Key * Value)) (w : world) : world :=
  mkWorld (mkcache (lru.mkCache (lru.MaxEntries (cache_ (self w))) l) (ttl (self w)))
          (evictions w).

(** The state after a hit of [c.cache.Get(key)]: the entry is the most
    recently used one. *)
Definition touch (key : string) (w : world) : world :=
  match entryOf key w with
  | Some v => set_ll ((KString key, v) :: lru.without (KString key) (entries w)) w
  | None => set_ll (entries w) w
  end.

(** Every key is a string and every value a [Resource] whose map was made. *)
Definition entry_ok (e : Key * Value) : Prop :=
  (∃ k, e.1 = KString k) ∧ (∃ r, e.2 = VResource r ∧ Requests r ≠ None).

Definition wf_list (l : list (Key * Value)) : Prop :=
  Forall entry_ok l ∧ NoDup l.*1.

Definition wf (w : world) : Prop := wf_list (entries w).

(** [Add] of a key that is not in the cache exceeds [MaxEntries]. *)
Definition full (w : world) : bool :=
  let m := lru.MaxEntries (cache_ (self w)) in
  negb (m =? 0) && (m <? Z.of_nat (S (length (entries w)))).

(** The state once the entry of [key] has been removed and handed to the
    callback. *)
Definition evict (key : string) (value : Resource) (w : world) : world :=
  mkWorld (self (set_ll (lru.without (KString key) (entries w)) w))
          (evictions w ++ [(key, value)]).

(** The state once [key] holds [value] as the most recently used entry. *)
Definition put (key : string) (value : Resource) (w : world) : world :=
  set_ll ((KString key, VResource value) :: lru.without (KString key) (entries w)) w.

(** The resources that [SetResponse], [AddRequest] and [DeleteRequest] store. *)
Definition responded (c : cache) (response : DiscoveryResponse) (requests : option (gmap Handle bool))
    (now : time.Time) : Resource :=
  {| Resp := Some response; Requests := requests; ExpirationTime := getExpirationTime c now |}.

Definition attach (req : Handle) (resource : Resource) : Resource :=
  {| Resp := Resp resource; Requests := <[req:=true]> <$> Requests resource;
     ExpirationTime := ExpirationTime resource |}.

Definition detach (req : Handle) (resource : Resource) : Resource :=
  {| Resp := Resp resource; Requests := delete req <$> Requests resource;
     ExpirationTime := ExpirationTime resource |}.

Definition requested (c : cache) (req : Handle) (now : time.Time) : Resource :=
  {| Resp := None; Requests := Some {[req := true]};
     ExpirationTime := getExpirationTime c now |}.

(** The key was in the cache when the call began and the call removed it. *)
Definition lazily_evicted (key : string) (w w' : world) : Prop :=
  is_Some (entryOf key w) ∧ entryOf key w' = None.

(** The set that a [map[*v2.DiscoveryRequest]bool] stands for; the nil map
    has no element. *)
Definition requestSet (requests : option (gmap Handle bool)) : gset Handle :=
  match requests with
  | Some m => dom m
  | None => ∅
  end.

Definition emptyWorld (maxEntries : Z) (ttl : time.Duration) : world :=
  mkWorld (mkcache (lru.mkCache maxEntries []) ttl) [].

(** The handle [h] is in the requests of the entry of [k]. *)
Definition attached (h : Handle) (k : string) (w : world) : Prop :=
  ∃ r, entryOf k w = Some (VResource r) ∧ h ∈ requestSet (Requests r).

(** ** Sequences of calls *)

Inductive call :=
| CallFetch (key : string) (now1 now2 : time.Time)
| CallFetchReadOnly (key : string) (now1 now2 : time.Time)
| CallSetResponse (key : string) (response : DiscoveryResponse) (now : time.Time)
| CallAddRequest (key : string) (req : Handle) (now : time.Time)
| CallDeleteRequest (key : string) (req : Handle).

(** One call; what is kept of its results is its error. *)
Definition exec (c : call) : M (option error) :=
  match c with
  | CallFetch key now1 now2 => r ← Fetch key now1 now2; mret r.2
  | CallFetchReadOnly key now1 now2 => r ← FetchReadOnly key now1 now2; mret r.2
  | CallSetResponse key response now => r ← SetResponse key response now; mret r.2
  | CallAddRequest key req now => AddRequest key req now
  | CallDeleteRequest key req => DeleteRequest key req
  end.

Fixpoint run (calls : list call) : M (list (option error)) :=
  match calls with
  | [] => mret []
  | c :: calls => e ← exec c; es ← run calls; mret (e :: es)
  end.

(** ** The orchestrator

    Of the orchestrator this development has the tests, not the source.
    The orchestrator is modelled from sections 4.2 to 4.4 of the
    specification, on top of the cache above; every definition that stands
    for missing code says so. *)

Module gcp.
(** [gcp.Request], of which the orchestrator reads the version. *)
Record Request := mkRequest {
  VersionInfo : string;
  TypeUrl : string
}.
End gcp.

(** Modelled from the spec: a response written to the channel of a watch by
    the missing orchestrator, by [CreateWatch] itself ([fanned = false]) or
    by the fan-out task. *)
Record delivery := mkDelivery {
  watch : Handle;
  fanned : bool;
  payload : DiscoveryResponse
}.

(** Modelled from the spec: the state of the orchestrator, which is missing
    from the sources.  The downstream registry maps a request handle to its
    channel, here the responses written and not yet read; the upstream
    registry is the set of keys that have a subscription; [watchKey] is the
    aggregated key captured by the cancel function of each watch;
    [nextHandle] is the address of the next request; [sent] records every
    response written to a channel, oldest first.  A channel holds one
    response; a write that would wait for its reader is recorded as made. *)
Record orchestrator := mkOrchestrator {
  cacheOf : cache;
  downstreamResponseMap : gmap Handle (list DiscoveryResponse);
  upstreamResponseMap : gset string;
  watchKey : gmap Handle string;
  nextHandle : Handle;
  sent : list delivery
}.

(** Modelled from the spec: the computations of the missing orchestrator,
    on its state. *)
Definition O (A : Type) : Type := orchestrator → res (A * orchestrator).

#[global] Instance O_ret : MRet O := λ A a o, Done (a, o).
#[global] Instance O_bind : MBind O := λ A B f m o,
  match m o with
  | Done (a, o') => f a o'
  | Panic msg => Panic msg
  end.

(** Modelled from the spec: the number of responses of one kind that the
    missing orchestrator has written to the channel of [h]. *)
Definition deliveries (fan : bool) (h : Handle) (log : list delivery) : nat :=
  length (filter (λ d, watch d = h ∧ fanned d = fan) log).

Section Orchestrator.

(** The mapper: [GetKey] fails with [None]. *)
Variable GetKey : gcp.Request → option string.

(** Modelled from the spec: the orchestrator missing from the sources,
    as created around a cache. *)
Definition newOrchestrator (c : cache) : orchestrator :=
  {| cacheOf := c; downstreamResponseMap := ∅; upstreamResponseMap := ∅;
     watchKey := ∅; nextHandle := 1%positive; sent := [] |}.

(** Modelled from the spec: the cache of the missing orchestrator, before a
    call. *)
Definition worldOf (o : orchestrator) : world := mkWorld (cacheOf o) [].

(** Modelled from the spec: [shutdown] of the missing orchestrator, which
    removes the subscription of the key from the upstream registry. *)
Definition shutdown (aggregatedKey : string) (o : orchestrator) : orchestrator :=
  {| cacheOf := cacheOf o; downstreamResponseMap := downstreamResponseMap o;
     upstreamResponseMap := upstreamResponseMap o ∖ {[aggregatedKey]};
     watchKey := watchKey o; nextHandle := nextHandle o; sent := sent o |}.

(** Modelled from the spec: [onCacheEvicted] of the missing orchestrator,
    the eviction callback given to the cache, which invokes [shutdown]. *)
Definition onCacheEvicted (o : orchestrator) (e : string * Resource) : orchestrator :=
  shutdown e.1 o.

(** Modelled from the spec: a call of the cache made by the missing
    orchestrator; the evictions of the call go to [onCacheEvicted]. *)
Definition onCache {A} (m : M A) : O A := λ o,
  match m (worldOf o) with
  | Done (a, w) =>
      Done (a, foldl onCacheEvicted
                 {| cacheOf := self w; downstreamResponseMap := downstreamResponseMap o;
                    upstreamResponseMap := upstreamResponseMap o;
                    watchKey := watchKey o; nextHandle := nextHandle o; sent := sent o |}
                 (evictions w))
  | Panic msg => Panic msg
  end.

(** Modelled from the spec: the missing orchestrator writing a response to
    the channel of a watch that is still registered. *)
Definition send (h : Handle) (fan : bool) (response : DiscoveryResponse) : O unit := λ o,
  match downstreamResponseMap o !! h with
  | Some channel =>
      Done ((), {| cacheOf := cacheOf o;
                   downstreamResponseMap := <[h := channel ++ [response]]> (downstreamResponseMap o);
                   upstreamResponseMap := upstreamResponseMap o;
                   watchKey := watchKey o; nextHandle := nextHandle o;
                   sent := sent o ++ [mkDelivery h fan response] |})
  | None => Done ((), o)
  end.

(** Modelled from the spec: step 2 of the create-watch path of the missing
    orchestrator, a channel for a new request handle. *)
Definition register (aggregatedKey : string) : O Handle := λ o,
  let h := nextHandle o in
  Done (h, {| cacheOf := cacheOf o;
              downstreamResponseMap := <[h := []]> (downstreamResponseMap o);
              upstreamResponseMap := upstreamResponseMap o;
              watchKey := <[h := aggregatedKey]> (watchKey o);
              nextHandle := Pos.succ h; sent := sent o |}).

(** Modelled from the spec: step 5 of the create-watch path of the missing
    orchestrator, the subscription of the key, opened when there is none. *)
Definition subscribe (aggregatedKey : string) : O unit := λ o,
  Done ((), {| cacheOf := cacheOf o; downstreamResponseMap := downstreamResponseMap o;
               upstreamResponseMap := {[aggregatedKey]} ∪ upstreamResponseMap o;
               watchKey := watchKey o; nextHandle := nextHandle o; sent := sent o |}).

(** Modelled from the spec: [CreateWatch] of the missing orchestrator,
    steps 1 to 5 of the create-watch path.  It returns the handle of the
    watch, or nothing when the mapper fails. *)
Definition CreateWatch (request : gcp.Request) (now now1 now2 : time.Time) : O (option Handle) :=
  match GetKey request with
  | None => mret None
  | Some key =>
      h ← register key;
      err ← onCache (AddRequest key h now);
      match err with
      | Some _ => mret (Some h)
      | None =>
          cached ← onCache (Fetch key now1 now2);
          match cached.1 ≫= Resp with
          | Some response =>
              if decide (VersionInfo response = gcp.VersionInfo request)
              then mret ()
              else send h false response
          | None => mret ()
          end;;
          subscribe key;;
          mret (Some h)
      end
  end.

(** Modelled from the spec: the loop of the fan-out task of the missing
    orchestrator.  Each handle attached to the key gets the response if
    its watch is still registered, and leaves the requests of the entry. *)
Fixpoint fanout (aggregatedKey : string) (response : DiscoveryResponse)
    (watchers : list Handle) : O unit :=
  match watchers with
  | [] => mret ()
  | h :: watchers =>
      send h true response;;
      onCache (DeleteRequest aggregatedKey h);;
      fanout aggregatedKey response watchers
  end.

(** Modelled from the spec: the fan-out task of the missing orchestrator
    receiving one response from the upstream channel of a key. *)
Definition upstreamResponse (aggregatedKey : string) (response : DiscoveryResponse)
    (now : time.Time) : O unit := λ o,
  if decide (aggregatedKey ∈ upstreamResponseMap o) then
    (r ← onCache (SetResponse aggregatedKey response now);
     fanout aggregatedKey response (elements (requestSet r.1))) o
  else Done ((), o).

(** Modelled from the spec: the cancel function that the missing
    [CreateWatch] returns. *)
Definition cancelWatch (h : Handle) : O unit := λ o,
  match watchKey o !! h with
  | Some key =>
      (onCache (DeleteRequest key h);; mret ())
        {| cacheOf := cacheOf o; downstreamResponseMap := delete h (downstreamResponseMap o);
           upstreamResponseMap := upstreamResponseMap o;
           watchKey := watchKey o; nextHandle := nextHandle o; sent := sent o |}
  | None => Done ((), o)
  end.

(** Modelled from the spec: the downstream reader of a channel of the
    missing orchestrator, which takes the oldest response. *)
Definition receive (h : Handle) : O (option DiscoveryResponse) := λ o,
  match downstreamResponseMap o !! h with
  | Some (response :: channel) =>
      Done (Some response,
            {| cacheOf := cacheOf o;
               downstreamResponseMap := <[h := channel]> (downstreamResponseMap o);
               upstreamResponseMap := upstreamResponseMap o;
               watchKey := watchKey o; nextHandle := nextHandle o; sent := sent o |})
  | _ => Done (None, o)
  end.

(** Modelled from the spec: what happens to the missing orchestrator.  A
    watch is created or cancelled, the upstream channel of a key yields a
    response or closes, a key is shut down, the reader of a channel takes a
    response. *)
Inductive event :=
| EvCreateWatch (request : gcp.Request) (now now1 now2 : time.Time)
| EvCancel (h : Handle)
| EvUpstream (aggregatedKey : string) (response : DiscoveryResponse) (now : time.Time)
| EvShutdown (aggregatedKey : string)
| EvUpstreamClosed (aggregatedKey : string)
| EvReceive (h : Handle).

(** Modelled from the spec: the missing orchestrator taking one event. *)
Definition step (e : event) : O unit :=
  match e with
  | EvCreateWatch request now now1 now2 => CreateWatch request now now1 now2;; mret ()
  | EvCancel h => cancelWatch h
  | EvUpstream key response now => upstreamResponse key response now
  | EvShutdown key => λ o, Done ((), shutdown key o)
  | EvUpstreamClosed key => λ o, Done ((), shutdown key o)
  | EvReceive h => receive h;; mret ()
  end.

(** Modelled from the spec: the missing orchestrator taking events in
    turn. *)
Fixpoint steps (es : list event) : O unit :=
  match es with
  | [] => mret ()
  | e :: es => step e;; steps es
  end.

End Orchestrator.

(** What holds of the orchestrator between two events: the cache is well
    formed; a handle attached to a key is the handle of a watch made for
    this key, to which the fan-out task has not written yet; a handle not
    yet allocated has no watch and no response; and no channel got more than
    one response of a kind. *)
Record Inv (o : orchestrator) : Prop := mkInv {
  inv_wf : wf (worldOf o);
  inv_key : ∀ h k, attached h k (worldOf o) → watchKey o !! h = Some k;
  inv_waiting : ∀ h k, attached h k (worldOf o) → deliveries true h (sent o) = 0%nat;
  inv_next : ∀ h b, (nextHandle o ≤ h)%positive →
                    watchKey o !! h = None ∧ deliveries b h (sent o) = 0%nat;
  inv_once : ∀ h b, (deliveries b h (sent o) ≤ 1)%nat
}.

(** A cache to which no handle is attached, as [NewCache] builds it and as
    [SetResponse] alone leaves it. *)
Definition unattended (c : cache) : Prop :=
  wf (mkWorld c []) ∧ ∀ h k, ¬ attached h k (mkWorld c []).

(** Modelled from the spec: the number of responses that the missing
    orchestrator has written to the channel of [h]. *)
Definition deliveriesTo (h : Handle) (log : list delivery) : nat :=
  length (filter (λ d, watch d = h) log).

(** The fields that the calls of the cache leave alone. *)
Definition same_watches (o o' : orchestrator) : Prop :=
  watchKey o' = watchKey o ∧ nextHandle o' = nextHandle o ∧ sent o' = sent o.

(** ** The states of the tests *)

(** [testDiscoveryResponse] of [cache_test.go]. *)
Definition testDiscoveryResponse : DiscoveryResponse :=
  mkResponse "version_A" ["test"] false "typeURL_A" "nonce_A".

(** As in [TestTTL_Enabled]: a cache with [ttl = 10] in which [key_A] was
    set at time 0. *)
Definition expiringResource : Resource :=
  {| Resp := Some testDiscoveryResponse; Requests := Some ∅; ExpirationTime := 10 |}.

Definition expiringWorld : world :=
  mkWorld (mkcache (lru.mkCache 1 [(KString "key_A", VResource expiringResource)]) 10) [].

(** A cache with room for two keys: [key_A] was requested by handle 1, then
    [key_B] by handle 2. *)
Definition resourceA : Resource :=
  {| Resp := None; Requests := Some {[1%positive := true]}; ExpirationTime := 60 |}.
Definition resourceB : Resource :=
  {| Resp := None; Requests := Some {[2%positive := true]}; ExpirationTime := 60 |}.

Definition twoKeys : world :=
  mkWorld (mkcache (lru.mkCache 2 [(KString "key_B", VResource resourceB);
                                   (KString "key_A", VResource resourceA)]) 60) [].

Definition twoRequests : M (option error) :=
  AddRequest "key_A" 1%positive 0;; AddRequest "key_B" 2%positive 0.

Definition testCalls : list call :=
  [CallSetResponse "key_A" testDiscoveryResponse 0;
   CallAddRequest "key_B" 2%positive 1;
   CallFetch "key_B" 100 100;
   CallFetchReadOnly "key_A" 100 100;
   CallDeleteRequest "key_B" 2%positive].

(** The mapper of the tests, which keys on the type of the request. *)
Definition testMapper (request : gcp.Request) : option string :=
  if decide (gcp.TypeUrl request = "type.googleapis.com/envoy.api.v2.Listener") then Some "lds"
  else if decide (gcp.TypeUrl request = "type.googleapis.com/envoy.api.v2.Cluster") then Some "cds"
  else None.

Definition mockResponse : DiscoveryResponse :=
  mkResponse "1" ["lds resource"] false "type.googleapis.com/envoy.api.v2.Listener" "".

Definition upstreamResponse2 : DiscoveryResponse :=
  mkResponse "2" ["some other lds resource"] false
             "type.googleapis.com/envoy.api.v2.Listener" "".

Definition listenerRequest : gcp.Request :=
  gcp.mkRequest "0" "type.googleapis.com/envoy.api.v2.Listener".

(** The cache of the test once [mockResponse] has been set; 1000 entries and
    one hour stand for [cacheMaxEntries] and [cacheTTL]. *)
Definition preloadedCache : cache :=
  mkcache (lru.mkCache 1000
             [(KString "lds", VResource {| Resp := Some mockResponse; Requests := Some ∅;
                                           ExpirationTime := 3600000000000 |})])
          3600000000000.

Definition cachedResponseEvents : list event :=
  [EvCreateWatch listenerRequest 1 1 1;
   EvReceive 1%positive;
   EvUpstream "lds" upstreamResponse2 2;
   EvReceive 1%positive].

(** The tests of [cache_test.go] as programs; a request is the address of
    [testRequestA] or [testRequestB], and the clock is read in nanoseconds. *)
Definition testKeyA : string := "key_A".
Definition testKeyB : string := "key_B".
Definition testRequestA : Handle := 1%positive.
Definition testRequestB : Handle := 2%positive.
Definition second : time.Duration := 1000000000.
Definition millisecond : time.Duration := 1000000.

(** What a test looks at in the result of [Fetch]: the response of the
    resource, when there is one, and the error. *)
Definition fetched (r : option Resource * option error)
  : option (option DiscoveryResponse) * option error :=
  (Resp <$> r.1, r.2).

Definition TestAddRequestAndFetch : M _ :=
  r1 ← Fetch testKeyA 1 1;
  e ← AddRequest testKeyA testRequestA 2;
  r2 ← Fetch testKeyA 3 3;
  mret (fetched r1, e, fetched r2).

Definition TestSetResponseAndFetch : M _ :=
  r1 ← Fetch testKeyA 1 1;
  s ← SetResponse testKeyA testDiscoveryResponse 2;
  r2 ← Fetch testKeyA 3 3;
  mret (fetched r1, s, fetched r2).

Definition TestAddRequestAndSetResponse : M _ :=
  e1 ← AddRequest testKeyA testRequestA 1;
  e2 ← AddRequest testKeyA testRequestB 2;
  s ← SetResponse testKeyA testDiscoveryResponse 3;
  r ← Fetch testKeyA 4 4;
  mret (e1, e2, s, fetched r).

Definition TestMaxEntries : M _ :=
  s ← SetResponse testKeyA testDiscoveryResponse 1;
  r1 ← Fetch testKeyA 2 2;
  e ← AddRequest testKeyB testRequestB 3;
  r2 ← Fetch testKeyA 4 4;
  r3 ← Fetch testKeyB 5 5;
  mret (s.2, fetched r1, e, fetched r2, fetched r3).

Definition TestTTL_Enabled : M _ :=
  s ← SetResponse testKeyA testDiscoveryResponse 1;
  r1 ← Fetch testKeyA 2 2;
  r2 ← Fetch testKeyA (2 + 10 * millisecond) (3 + 10 * millisecond);
  r3 ← Fetch testKeyA (4 + 10 * millisecond) (4 + 10 * millisecond);
  mret (s.2, fetched r1, r2, fetched r3).

Definition TestDeleteRequest : M _ :=
  e1 ← AddRequest testKeyA testRequestA 1;
  e2 ← AddRequest testKeyA testRequestA 2;
  e3 ← DeleteRequest testKeyA testRequestA;
  s ← SetResponse testKeyA testDiscoveryResponse 3;
  e4 ← DeleteRequest testKeyB testRequestB;
  mret (e1, e2, e3, s, e4).

(** [testResource] *)
Definition testResource : Resource :=
  {| Resp := Some testDiscoveryResponse; Requests := Some ∅; ExpirationTime := time.Zero |}.

(** The tests of [orchestrator_test.go] as programs on the orchestrator
    modelled from the spec.  [registrySizes] reads the lengths of the two
    registries that the tests assert. *)
Definition registrySizes : O (nat * nat) := λ o,
  Done ((size (downstreamResponseMap o), size (upstreamResponseMap o)), o).

Definition clusterRequest : gcp.Request :=
  gcp.mkRequest "" "type.googleapis.com/envoy.api.v2.Cluster".

Definition ldsResponse : DiscoveryResponse :=
  mkResponse "1" ["lds resource"] false "type.googleapis.com/envoy.api.v2.Listener" "".

Definition cdsResponse : DiscoveryResponse :=
  mkResponse "1" ["cds resource"] false "type.googleapis.com/envoy.api.v2.Cluster" "".

Definition TestGoldenPath : O _ :=
  h ← CreateWatch testMapper (gcp.mkRequest "" "type.googleapis.com/envoy.api.v2.Listener") 1 1 1;
  n1 ← registrySizes;
  upstreamResponse "lds" ldsResponse 2;;
  got ← receive 1%positive;
  step testMapper (EvShutdown "lds");;
  n2 ← registrySizes;
  cancelWatch 1%positive;;
  n3 ← registrySizes;
  mret (h, n1, got, n2.2, n3.1).

Definition TestCachedResponse : O _ :=
  h1 ← CreateWatch testMapper listenerRequest 1 1 1;
  n1 ← registrySizes;
  got1 ← receive 1%positive;
  upstreamResponse "lds" upstreamResponse2 2;;
  got2 ← receive 1%positive;
  h2 ← CreateWatch testMapper (gcp.mkRequest "2" "type.googleapis.com/envoy.api.v2.Listener") 3 3 3;
  n2 ← registrySizes;
  got3 ← receive 2%positive;
  step testMapper (EvShutdown "lds");;
  cancelWatch 1%positive;;
  n3 ← registrySizes;
  cancelWatch 2%positive;;
  n4 ← registrySizes;
  mret (h1, n1, got1, got2, h2, n2, got3, n3, n4).

Definition TestMultipleWatchesAndUpstreams : O _ :=
  h1 ← CreateWatch testMapper (gcp.mkRequest "" "type.googleapis.com/envoy.api.v2.Listener") 1 1 1;
  h2 ← CreateWatch testMapper (gcp.mkRequest "" "type.googleapis.com/envoy.api.v2.Listener") 2 2 2;
  h3 ← CreateWatch testMapper clusterRequest 3 3 3;
  upstreamResponse "lds" ldsResponse 4;;
  upstreamResponse "cds" cdsResponse 5;;
  got1 ← receive 1%positive;
  got2 ← receive 2%positive;
  got3 ← receive 3%positive;
  n1 ← registrySizes;
  step testMapper (EvShutdown "lds");;
  step testMapper (EvShutdown "cds");;
  n2 ← registrySizes;
  cancelWatch 1%positive;;
  cancelWatch 2%positive;;
  cancelWatch 3%positive;;
  n3 ← registrySizes;
  mret (got1, got2, got3, n1, n2.2, n3.1).

(** ** The effect of a call

    The key that a call is about. *)
Definition keyOf (c : call) : string :=
  match c with
  | CallFetch key _ _ => key
  | CallFetchReadOnly key _ _ => key
  | CallSetResponse key _ _ => key
  | CallAddRequest key _ _ => key
  | CallDeleteRequest key _ => key
  end.

(** The resource that a call stores in place of the resource [r] of a key
    that is present: [SetResponse] replaces the response and the expiration
    time, [AddRequest] and [DeleteRequest] change the requests. *)
Definition derived (c : cache) (r r' : Resource) : Prop :=
  (∃ response now, r' = responded c response (Requests r) now) ∨
  (∃ req, Requests r ≠ None ∧ r' = attach req r) ∨
  (∃ req, r' = detach req r).

(** The resource that [SetResponse] or [AddRequest] stores for a key that is
    absent. *)
Definition created (c : cache) (r' : Resource) : Prop :=
  (∃ response now, r' = responded c response (Some ∅) now) ∨
  (∃ req now, r' = requested c req now).

(** The four ways in which a call changes the state: the entry of the key
    becomes the most recently used one, an expired entry is removed, a present
    key gets a new value, an absent key is added. *)
Inductive effect (key : string) (w w' : world) : Prop :=
| effect_touch : w' = touch key w → effect key w w'
| effect_evict r :
    entryOf key w = Some (VResource r) → w' = evict key r w → effect key w w'
| effect_put r r' :
    entryOf key w = Some (VResource r) → derived (self w) r r' →
    w' = put key r' w → effect key w w'
| effect_add r' :
    entryOf key w = None → created (self w) r' →
    cache_Add key r' w = Done ((), w') → effect key w w'.


(** Expiration is disabled, and no entry has a deadline. *)
Definition undated (w : world) : Prop :=
  ttl (self w) = 0 ∧
  ∀ k r, entryOf k w = Some (VResource r) → ExpirationTime r = time.Zero.

(** The calls that read: [Fetch] and [FetchReadOnly]. *)
Definition isFetch (c : call) : bool :=
  match c with
  | CallFetch _ _ _ | CallFetchReadOnly _ _ _ => true
  | _ => false
  end.

(** An unbounded cache with [ttl = 10] in which [key_A] was set at time 0. *)
Definition expiringWorld0 : world :=
  mkWorld (mkcache (lru.mkCache 0 [(KString "key_A", VResource expiringResource)]) 10) [].

(** ** Proof steps *)

Ltac unfold_M := unfold mbind, M_bind, mret, M_ret, with_lru, run_evicted,
  OnEvicted, onEvicted, expirationTime, panic.

(** ** The list operations of the LRU cache *)

Section lru_facts.
Implicit Types (k : Key) (v : Value) (l : list (Key * Value)).

Lemma lookup_without_eq k l : lru.lookup k (lru.without k l) = None.
Proof.
  induction l as [|[k' v'] l IH]; [done|].
  unfold lru.without in *. rewrite filter_cons. simpl.
  destruct (decide (k' ≠ k)) as [Hne|Heq]; simpl; [|done].
  by destruct (decide (k' = k)).
Qed.

Lemma lookup_without_ne k k' l :
  k ≠ k' → lru.lookup k' (lru.without k l) = lru.lookup k' l.
Proof.
  intros Hne. induction l as [|[k0 v0] l IH]; [done|].
  unfold lru.without in *. rewrite filter_cons. simpl.
  destruct (decide (k0 ≠ k)) as [H0|H0]; simpl.
  - by destruct (decide (k0 = k')).
  - apply dec_stable in H0. subst k0. by destruct (decide (k = k')).
Qed.

Lemma without_absent k l : lru.lookup k l = None → lru.without k l = l.
Proof.
  induction l as [|[k0 v0] l IH]; [done|]. simpl.
  unfold lru.without in *. rewrite filter_cons. simpl.
  destruct (decide (k0 = k)) as [->|Hne]; [done|]. intros H.
  destruct (decide (k0 ≠ k)); [|done]. by rewrite IH.
Qed.

Lemma without_cons_eq k v l : lru.without k ((k, v) :: l) = lru.without k l.
Proof.
  unfold lru.without. rewrite filter_cons. simpl.
  by destruct (decide (k ≠ k)).
Qed.

Lemma without_idemp k l : lru.without k (lru.without k l) = lru.without k l.
Proof. apply without_absent, lookup_without_eq. Qed.

Lemma lookup_Some_elem k v l : lru.lookup k l = Some v → (k, v) ∈ l.
Proof.
  induction l as [|[k0 v0] l IH]; [done|]. simpl.
  destruct (decide (k0 = k)) as [->|Hne].
  - intros [= ->]. apply list_elem_of_here.
  - intros H. apply list_elem_of_further. auto.
Qed.

Lemma lookup_None_keys k l : lru.lookup k l = None ↔ k ∉ l.*1.
Proof.
  induction l as [|[k0 v0] l IH]; simpl.
  - split; [intros _; apply not_elem_of_nil|done].
  - destruct (decide (k0 = k)) as [->|Hne].
    + split; [done|]. intros H. exfalso. apply H, list_elem_of_here.
    + rewrite IH, not_elem_of_cons. simpl. intuition congruence.
Qed.

Lemma without_sublist k l : lru.without k l `sublist_of` l.
Proof. apply sublist_filter. Qed.

Lemma lookup_elem_NoDup k v l : NoDup l.*1 → (k, v) ∈ l → lru.lookup k l = Some v.
Proof.
  induction l as [|[k0 v0] l IH]; simpl.
  - intros _ H. by apply not_elem_of_nil in H.
  - rewrite NoDup_cons, elem_of_cons. intros [Hk0 Hl] [[= -> ->]|Hin].
    + by rewrite decide_True.
    + rewrite decide_False; [by apply IH|].
      intros ->. apply Hk0. by apply (list_elem_of_fmap_2 fst) in Hin.
Qed.

Lemma wf_list_sublist l l' : l' `sublist_of` l → wf_list l → wf_list l'.
Proof.
  intros Hsub [Hok Hnd]. split.
  - rewrite Forall_forall in *. intros e He. eapply Hok, elem_of_sublist; eauto.
  - eapply sublist_NoDup; [exact Hnd|]. by apply fmap_sublist.
Qed.

Lemma wf_list_without k l : wf_list l → wf_list (lru.without k l).
Proof. apply wf_list_sublist, without_sublist. Qed.

Lemma wf_list_cons k v l :
  entry_ok (k, v) → lru.lookup k l = None → wf_list l → wf_list ((k, v) :: l).
Proof.
  intros Hok Hk [Hl Hnd]. split; [by constructor|].
  simpl. apply NoDup_cons. split; [by apply lookup_None_keys|done].
Qed.

Lemma wf_list_front k v l :
  entry_ok (k, v) → wf_list l → wf_list ((k, v) :: lru.without k l).
Proof.
  intros Hok Hl. apply wf_list_cons; [done|apply lookup_without_eq|].
  by apply wf_list_without.
Qed.

Lemma wf_list_lookup k v l : wf_list l → lru.lookup k l = Some v → entry_ok (k, v).
Proof.
  intros [Hok _] Hk. rewrite Forall_forall in Hok.
  by apply Hok, lookup_Some_elem.
Qed.

End lru_facts.

(** ** What each call does to the state *)

Lemma set_ll_entries l w : entries (set_ll l w) = l.
Proof. done. Qed.

Lemma set_ll_set_ll l l' w : set_ll l (set_ll l' w) = set_ll l w.
Proof. done. Qed.

Lemma entryOf_touch key key' w : entryOf key' (touch key w) = entryOf key' w.
Proof.
  unfold touch. destruct (entryOf key w) as [v|] eqn:Hv; [|done].
  unfold entryOf in *. rewrite set_ll_entries. simpl.
  destruct (decide (KString key = KString key')) as [<-|Hne]; [done|].
  by apply lookup_without_ne.
Qed.

Lemma self_touch key w :
  ttl (self (touch key w)) = ttl (self w) ∧
  lru.MaxEntries (cache_ (self (touch key w))) = lru.MaxEntries (cache_ (self w)) ∧
  evictions (touch key w) = evictions w.
Proof. unfold touch. by destruct (entryOf key w). Qed.

Lemma Get_run key w : cache_Get key w = Done (entryOf key w, touch key w).
Proof.
  destruct w as [[[m l] t] ev].
  unfold cache_Get, with_lru, lru.Get, touch, entryOf, entries. simpl.
  by destruct (lru.lookup _ _).
Qed.

Lemma Remove_run key r w :
  entryOf key w = Some (VResource r) → cache_Remove key w = Done ((), evict key r w).
Proof.
  unfold cache_Remove, entryOf, entries. unfold_M. unfold lru.Remove.
  by intros ->.
Qed.

Lemma entryOf_evict key key' r w :
  entryOf key' (evict key r w) = if decide (key = key') then None else entryOf key' w.
Proof.
  unfold entryOf, evict, entries. simpl. case_decide as H.
  - subst. apply lookup_without_eq.
  - apply lookup_without_ne. congruence.
Qed.

Lemma evict_touch key r w :
  evict key r (touch key w) = evict key r w.
Proof.
  unfold evict, touch. destruct (entryOf key w); [|done].
  unfold set_ll, entries. simpl. by rewrite without_cons_eq, without_idemp.
Qed.

Lemma touch_touch key w : touch key (touch key w) = touch key w.
Proof.
  unfold touch at 1. rewrite entryOf_touch.
  destruct (entryOf key w) as [v|] eqn:Hv.
  - unfold touch. rewrite Hv, set_ll_set_ll, set_ll_entries.
    by rewrite without_cons_eq, without_idemp.
  - unfold touch. by rewrite Hv.
Qed.

(** [Fetch], case by case. *)
Lemma Fetch_run key now1 now2 w :
  Fetch key now1 now2 w =
  match entryOf key w with
  | None => Done ((None, Some (ErrNoValue key)), touch key w)
  | Some (VOther _) => Done ((None, Some (ErrCast key)), touch key w)
  | Some (VResource resource) =>
      if isExpired resource now1 && isExpired resource now2
      then Done ((None, None), evict key resource w)
      else Done ((Some resource, None), touch key w)
  end.
Proof.
  unfold Fetch. unfold mbind at 1. unfold M_bind. rewrite Get_run.
  destruct (entryOf key w) as [[r|n]|] eqn:Hv; [|done..].
  destruct (isExpired r now1); [|done]. simpl.
  unfold mbind at 1. unfold M_bind. rewrite Get_run, entryOf_touch, Hv.
  destruct (isExpired r now2); [|by rewrite touch_touch].
  unfold mbind, M_bind. rewrite (Remove_run key r), ?touch_touch.
  - by rewrite evict_touch.
  - by rewrite !entryOf_touch.
Qed.

Lemma entryOf_put key key' r w :
  entryOf key' (put key r w) =
  if decide (key = key') then Some (VResource r) else entryOf key' w.
Proof.
  unfold entryOf, put. rewrite set_ll_entries. simpl.
  destruct (decide (KString key = KString key')) as [[= ->]|Hne].
  - by rewrite decide_True.
  - rewrite decide_False by congruence. by apply lookup_without_ne.
Qed.

Lemma Add_present_run key r v w :
  entryOf key w = Some v → cache_Add key r w = Done ((), put key r w).
Proof.
  unfold cache_Add, entryOf, entries. unfold_M. unfold lru.Add. by intros ->.
Qed.

Lemma put_touch key r w : put key r (touch key w) = put key r w.
Proof.
  unfold put, touch. destruct (entryOf key w); [|done].
  by rewrite set_ll_set_ll, set_ll_entries, without_cons_eq, without_idemp.
Qed.

Lemma Add_absent_room key r w :
  entryOf key w = None → full w = false → cache_Add key r w = Done ((), put key r w).
Proof.
  destruct w as [[[m l] t] ev]. intros Hk Hfull.
  unfold full, put, cache_Add, entryOf, entries in *. unfold_M.
  unfold lru.Add, lru.Len. simpl in *. rewrite Hk, Hfull.
  unfold set_ll. simpl. by rewrite without_absent.
Qed.

(** When the cache is full, the entry at the back of the list goes, and the
    callback receives it. *)
Lemma Add_absent_full key r w :
  wf w → Requests r ≠ None → entryOf key w = None → full w = true →
  ∃ l0 k0 r0,
    (KString key, VResource r) :: entries w = l0 ++ [(KString k0, VResource r0)] ∧
    cache_Add key r w = Done ((), mkWorld (self (set_ll l0 w)) (evictions w ++ [(k0, r0)])).
Proof.
  destruct w as [[[m l] t] ev]. intros Hwf Hr Hk Hfull.
  unfold full, wf, cache_Add, entryOf, entries in *. unfold_M.
  unfold lru.Add, lru.Len, lru.RemoveOldest. simpl in *. rewrite Hk, Hfull.
  cbn [lru.ll lru.MaxEntries].
  destruct (last ((KString key, VResource r) :: l)) as [[k0 v0]|] eqn:Hlast;
    [|by apply last_None in Hlast].
  assert (entry_ok (k0, v0)) as [[k1 Hk1] [r1 [Hr1 _]]].
  { assert (wf_list ((KString key, VResource r) :: l)) as [Hok _].
    { apply wf_list_cons; [|done..]. split; simpl; eauto. }
    rewrite Forall_forall in Hok. by apply Hok, last_Some_elem_of. }
  simpl in Hk1, Hr1. subst k0 v0.
  apply last_Some in Hlast as [l0 Hl0]. exists l0, k1, r1. split; [done|].
  assert (removelast ((KString key, VResource r) :: l) = l0) as Hrl
    by (by rewrite Hl0, removelast_last).
  simpl in *. by rewrite Hrl.
Qed.

Lemma touch_absent key w : entryOf key w = None → touch key w = w.
Proof. unfold touch. intros ->. by destruct w as [[[m l] t] ev]. Qed.

Lemma wf_touch key w : wf w → wf (touch key w).
Proof.
  unfold touch. destruct (entryOf key w) as [v|] eqn:Hv; [|done].
  intros Hwf. apply wf_list_front; [|done]. by eapply wf_list_lookup.
Qed.

Lemma wf_put key r w : Requests r ≠ None → wf w → wf (put key r w).
Proof. intros Hr Hwf. apply wf_list_front; [|done]. split; simpl; eauto. Qed.

Lemma wf_evict key r w : wf w → wf (evict key r w).
Proof. apply wf_list_without. Qed.

Lemma entryOf_wf key v w :
  wf w → entryOf key w = Some v → ∃ r, v = VResource r ∧ Requests r ≠ None.
Proof. intros Hwf Hv. by destruct (wf_list_lookup _ _ _ Hwf Hv) as [_ ?]. Qed.

(** [c.cache.Add] on a well-formed state: it returns, the new value is
    the only change under [key], no other key gains or changes a value, and
    the entry stays when its key was present or [MaxEntries] is not
    negative. *)
Lemma Add_spec key r w :
  wf w → Requests r ≠ None →
  ∃ w', cache_Add key r w = Done ((), w') ∧ wf w' ∧
    self w' = mkcache (lru.mkCache (lru.MaxEntries (cache_ (self w))) (entries w'))
                      (ttl (self w)) ∧
    (∀ k v, entryOf k w' = Some v →
            if decide (k = key) then v = VResource r else entryOf k w = Some v) ∧
    (is_Some (entryOf key w) ∨ 0 ≤ lru.MaxEntries (cache_ (self w)) →
     entryOf key w' = Some (VResource r)) ∧
    (is_Some (entryOf key w) → w' = put key r w) ∧
    evictions w `prefix_of` evictions w'.
Proof.
  intros Hwf Hr.
  assert (∀ k v, entryOf k (put key r w) = Some v →
            if decide (k = key) then v = VResource r else entryOf k w = Some v) as Hput.
  { intros k v. rewrite entryOf_put. repeat case_decide; naive_solver. }
  destruct (entryOf key w) as [v|] eqn:Hv; [|destruct (full w) eqn:Hfull].
  - exists (put key r w). rewrite (Add_present_run _ _ v) by done.
    split_and!; [done|by apply wf_put|done|done| |done|done].
    intros _. rewrite entryOf_put. by rewrite decide_True.
  - destruct (Add_absent_full key r w) as (l0 & k0 & r0 & Hl0 & ->); [done..|].
    eexists. split; [done|].
    assert (wf_list ((KString key, VResource r) :: entries w)) as Hwf'.
    { apply wf_list_cons; [|done..]. split; simpl; eauto. }
    assert (l0 `sublist_of` (KString key, VResource r) :: entries w) as Hsub.
    { rewrite Hl0. apply sublist_inserts_r. done. }
    split_and!.
    + eapply wf_list_sublist; [exact Hsub|done].
    + done.
    + intros k v Hk. apply lookup_Some_elem in Hk. unfold entries in Hk. simpl in Hk.
      eapply elem_of_sublist in Hk; [|exact Hsub].
      apply lookup_elem_NoDup in Hk; [|apply Hwf']. simpl in Hk.
      destruct (decide (KString key = KString k)) as [[= ->]|Hne].
      * rewrite decide_True by done. congruence.
      * rewrite decide_False by congruence. done.
    + intros [[? [=]]|Hmax]. unfold full in Hfull.
      destruct (entries w) as [|e l] eqn:He.
      { simpl in Hfull. apply andb_true_iff in Hfull as [H1 H2].
        apply negb_true_iff, Z.eqb_neq in H1. apply Z.ltb_lt in H2. lia. }
      destruct l0 as [|e0 l0]; [done|]. injection Hl0 as <- Hl0.
      unfold entryOf, entries. simpl. by rewrite decide_True.
    + by intros [? [=]].
    + simpl. by apply prefix_app_r.
  - exists (put key r w). rewrite Add_absent_room by done.
    split_and!; [done|by apply wf_put|done|done| |done|done].
    intros _. rewrite entryOf_put. by rewrite decide_True.
Qed.

Lemma getExpirationTime_touch key w now :
  getExpirationTime (self (touch key w)) now = getExpirationTime (self w) now.
Proof. unfold getExpirationTime. by destruct (self_touch key w) as [-> _]. Qed.

Lemma SetResponse_present key response now w resource :
  entryOf key w = Some (VResource resource) →
  SetResponse key response now w =
  Done ((Requests resource, None),
        put key (responded (self w) response (Requests resource) now) w).
Proof.
  intros Hv. unfold SetResponse. unfold mbind at 1. unfold M_bind.
  rewrite Get_run, Hv. unfold mbind at 1. unfold M_bind, expirationTime.
  unfold mbind, M_bind.
  rewrite (Add_present_run _ _ (VResource resource)) by by rewrite entryOf_touch.
  by rewrite getExpirationTime_touch, put_touch.
Qed.

Lemma SetResponse_absent key response now w :
  entryOf key w = None →
  SetResponse key response now w =
  (cache_Add key (responded (self w) response (Some ∅) now) ≫= λ _, mret (None, None)) w.
Proof.
  intros Hv. unfold SetResponse. unfold mbind at 1. unfold M_bind.
  rewrite Get_run, Hv, touch_absent by done. done.
Qed.

Lemma AddRequest_present key req now w resource requests :
  entryOf key w = Some (VResource resource) → Requests resource = Some requests →
  AddRequest key req now w = Done (None, put key (attach req resource) w).
Proof.
  intros Hv Hr. unfold AddRequest. unfold mbind at 1. unfold M_bind.
  rewrite Get_run, Hv, Hr. unfold mbind, M_bind.
  rewrite (Add_present_run _ _ (VResource resource)) by by rewrite entryOf_touch.
  rewrite put_touch. unfold attach. by rewrite Hr.
Qed.

Lemma AddRequest_absent key req now w :
  entryOf key w = None →
  AddRequest key req now w =
  (cache_Add key (requested (self w) req now) ≫= λ _, mret None) w.
Proof.
  intros Hv. unfold AddRequest. unfold mbind at 1. unfold M_bind.
  rewrite Get_run, Hv, touch_absent by done. done.
Qed.

Lemma DeleteRequest_present key req w resource :
  entryOf key w = Some (VResource resource) →
  DeleteRequest key req w = Done (None, put key (detach req resource) w).
Proof.
  intros Hv. unfold DeleteRequest. unfold mbind at 1. unfold M_bind.
  rewrite Get_run, Hv. unfold mbind, M_bind.
  rewrite (Add_present_run _ _ (VResource resource)) by by rewrite entryOf_touch.
  by rewrite put_touch.
Qed.

Lemma DeleteRequest_absent key req w :
  entryOf key w = None → DeleteRequest key req w = Done (None, w).
Proof.
  intros Hv. unfold DeleteRequest. unfold mbind at 1. unfold M_bind.
  by rewrite Get_run, Hv, touch_absent.
Qed.

(** ** Fetch *)

Example expiringWorld_built :
  SetResponse "key_A" testDiscoveryResponse 0 (mkWorld (mkcache (lru.mkCache 1 []) 10) [])
  = Done ((None, None), expiringWorld).
Proof. reflexivity. Qed.

(** C1, as stated, fails: a [Fetch] that finds its entry expired removes it
    and returns no entry and no error, where the claim has a notFound error. *)
Lemma Fetch_lazy_eviction_is_not_notFound :
  ∃ w', Fetch "key_A" 11 11 expiringWorld = Done ((None, None), w') ∧
        lazily_evicted "key_A" expiringWorld w' ∧
        evictions w' = [("key_A", expiringResource)] ∧
        is_notFound None = false.
Proof.
  eexists. split; [reflexivity|]. split; [|done].
  split; [by eexists|reflexivity].
Qed.

(** C1, amended: [Fetch] always returns; its error is the notFound error
    exactly when the key is absent when the call begins, and the typeMismatch
    error exactly when the stored value is not a [Resource]; an entry found
    expired at both tests is removed and handed to the eviction callback, and
    the call returns no entry and no error. *)
Theorem Fetch_errors (key : string) (now1 now2 : time.Time) (w : world) :
  ∃ resource err w',
    Fetch key now1 now2 w = Done ((resource, err), w') ∧
    (err = Some (ErrNoValue key) ↔ entryOf key w = None) ∧
    (is_notFound err = true ↔ entryOf key w = None) ∧
    (is_typeMismatch err = true ↔ ∃ n, entryOf key w = Some (VOther n)) ∧
    (∀ r, entryOf key w = Some (VResource r) →
          isExpired r now1 = true → isExpired r now2 = true →
          resource = None ∧ err = None ∧ lazily_evicted key w w' ∧
          evictions w' = evictions w ++ [(key, r)]).
Proof.
  rewrite Fetch_run. destruct (entryOf key w) as [[r|n]|] eqn:Hv.
  - destruct (isExpired r now1 && isExpired r now2) eqn:Hexp.
    + eexists _, _, _. split; [done|]. split_and!; try done.
      * split; [done|]. by intros [? [=]].
      * intros r' [= <-] _ _. split_and!; [done..| |done].
        split; [by rewrite Hv|]. rewrite entryOf_evict. by rewrite decide_True.
    + eexists _, _, _. split; [done|]. split_and!; try done.
      * split; [done|]. by intros [? [=]].
      * intros r' [= <-] H1 H2. by rewrite H1, H2 in Hexp.
  - eexists _, _, _. split; [done|]. split_and!; try done.
    split; [|done]. intros _. by exists n.
  - eexists _, _, _. split; [done|]. split_and!; try done.
    split; [done|]. by intros [? [=]].
Qed.

(** C5: an entry that [Fetch] returns is not expired at the reading of the
    clock taken by the last expiration test the call made: its
    [ExpirationTime] is the zero time or is not before that reading. *)
Theorem Fetch_not_expired (key : string) (now1 now2 : time.Time) (w w' : world)
    (r : Resource) (err : option error) :
  Fetch key now1 now2 w = Done ((Some r, err), w') →
  let t := if isExpired r now1 then now2 else now1 in
  err = None ∧ entryOf key w = Some (VResource r) ∧
  isExpired r t = false ∧
  (ExpirationTime r = time.Zero ∨ t ≤ ExpirationTime r) ∧
  (now1 ≤ now2 → isExpired r now1 = false).
Proof.
  rewrite Fetch_run. destruct (entryOf key w) as [[r0|n]|] eqn:Hv; [|done..].
  destruct (isExpired r0 now1 && isExpired r0 now2) eqn:Hexp; [done|].
  intros [= -> <- <-]. simpl.
  assert (isExpired r (if isExpired r now1 then now2 else now1) = false) as Ht.
  { destruct (isExpired r now1) eqn:H1; [|done]. by destruct (isExpired r now2). }
  split_and!; [done..| |].
  - revert Ht. generalize (if isExpired r now1 then now2 else now1). intros t.
    unfold isExpired, time.IsZero, time.Before, time.Zero.
    destruct (ExpirationTime r =? 0) eqn:Hz; [lia|]. lia.
  - intros Hle. destruct (isExpired r now1) eqn:H1; [|done].
    revert H1 Ht. unfold isExpired, time.IsZero, time.Before.
    destruct (ExpirationTime r =? 0); [done|]. lia.
Qed.

Lemma Fetch_not_expired_witness :
  let r := {| Resp := Some testDiscoveryResponse; Requests := Some ∅; ExpirationTime := 10 |} in
  @None error = None ∧ entryOf "key_A" expiringWorld = Some (VResource r) ∧
  isExpired r 5 = false ∧ (ExpirationTime r = time.Zero ∨ 5 ≤ ExpirationTime r) ∧
  (5 ≤ 6 → isExpired r 5 = false).
Proof.
  exact (Fetch_not_expired "key_A" 5 6 expiringWorld
           (touch "key_A" expiringWorld) expiringResource None eq_refl).
Defined.

(** C7: [Fetch] of a key whose entry is present and not expired returns the
    entry and leaves the value stored under every key as it was: nothing is
    evicted, and the expiration time, the response and the requests of the
    entry are the same after the call.  [AddRequest] and [DeleteRequest] on
    the entry keep its expiration time too; [SetResponse] is the call that
    replaces it. *)
Theorem Fetch_leaves_entry (key : string) (now1 now2 : time.Time) (w : world) (r : Resource) :
  entryOf key w = Some (VResource r) →
  isExpired r now1 = false →
  ∃ w', Fetch key now1 now2 w = Done ((Some r, None), w') ∧
    (∀ k, entryOf k w' = entryOf k w) ∧
    evictions w' = evictions w ∧
    (∀ req now requests, Requests r = Some requests →
       ∃ w'' r', AddRequest key req now w = Done (None, w'') ∧
                 entryOf key w'' = Some (VResource r') ∧
                 ExpirationTime r' = ExpirationTime r) ∧
    (∀ req, ∃ w'' r', DeleteRequest key req w = Done (None, w'') ∧
                      entryOf key w'' = Some (VResource r') ∧
                      ExpirationTime r' = ExpirationTime r) ∧
    (∀ response now, ∃ w'' r', SetResponse key response now w = Done ((Requests r, None), w'') ∧
                      entryOf key w'' = Some (VResource r') ∧
                      ExpirationTime r' = getExpirationTime (self w) now).
Proof.
  intros Hv Hexp. exists (touch key w). rewrite Fetch_run, Hv, Hexp. simpl.
  split_and!; [done| |apply self_touch|..].
  - intros k. apply entryOf_touch.
  - intros req now requests Hr. eexists _, _.
    rewrite (AddRequest_present _ _ _ _ r requests) by done.
    split; [done|]. rewrite entryOf_put, decide_True by done. done.
  - intros req. eexists _, _. rewrite (DeleteRequest_present _ _ _ r) by done.
    split; [done|]. rewrite entryOf_put, decide_True by done. done.
  - intros response now. eexists _, _.
    rewrite (SetResponse_present _ _ _ _ r) by done.
    split; [done|]. rewrite entryOf_put, decide_True by done. done.
Qed.

Lemma Fetch_leaves_entry_witness :
  ∃ w', Fetch "key_A" 5 5 expiringWorld = Done ((Some expiringResource, None), w') ∧
    (∀ k, entryOf k w' = entryOf k expiringWorld) ∧
    evictions w' = evictions expiringWorld ∧
    (∀ req now requests, Requests expiringResource = Some requests →
       ∃ w'' r', AddRequest "key_A" req now expiringWorld = Done (None, w'') ∧
                 entryOf "key_A" w'' = Some (VResource r') ∧
                 ExpirationTime r' = ExpirationTime expiringResource) ∧
    (∀ req, ∃ w'' r', DeleteRequest "key_A" req expiringWorld = Done (None, w'') ∧
                      entryOf "key_A" w'' = Some (VResource r') ∧
                      ExpirationTime r' = ExpirationTime expiringResource) ∧
    (∀ response now, ∃ w'' r',
       SetResponse "key_A" response now expiringWorld
         = Done ((Requests expiringResource, None), w'') ∧
       entryOf "key_A" w'' = Some (VResource r') ∧
       ExpirationTime r' = getExpirationTime (self expiringWorld) now).
Proof.
  apply (Fetch_leaves_entry "key_A" 5 5 expiringWorld expiringResource); reflexivity.
Defined.

(** C10: [FetchReadOnly] on the read-only view runs [Fetch] on the cache:
    same error, same final state, the entry that [Fetch] returns copied by
    value, and [Resource{}] when [Fetch] returns none, which covers the call
    that has just evicted the entry. *)
Theorem FetchReadOnly_agrees (key : string) (now1 now2 : time.Time) (w : world) :
  let view := mkWorld (GetReadOnlyCache (self w)) (evictions w) in
  ∃ resource err w',
    Fetch key now1 now2 w = Done ((resource, err), w') ∧
    FetchReadOnly key now1 now2 view =
      Done ((match resource with Some r => r | None => zeroResource end, err), w') ∧
    (∀ r, entryOf key w = Some (VResource r) →
          isExpired r now1 = true → isExpired r now2 = true →
          FetchReadOnly key now1 now2 view = Done ((zeroResource, None), w')).
Proof.
  destruct w as [c ev]. simpl. unfold GetReadOnlyCache, FetchReadOnly, mbind, M_bind.
  rewrite Fetch_run. destruct (entryOf key (mkWorld c ev)) as [[r|n]|] eqn:Hv.
  - destruct (isExpired r now1 && isExpired r now2) eqn:Hexp.
    + eexists _, _, _. split_and!; [done..|]. by intros r' [= <-] _ _.
    + eexists _, _, _. split_and!; [done..|].
      intros r' [= <-] H1 H2. by rewrite H1, H2 in Hexp.
  - eexists _, _, _. split_and!; done.
  - eexists _, _, _. split_and!; done.
Qed.

(** ** SetResponse *)

Lemma wf_emptyWorld maxEntries ttl : wf (emptyWorld maxEntries ttl).
Proof. split; constructor. Qed.

(** C3: on a well-formed cache whose [MaxEntries] is not negative,
    [SetResponse] creates the entry of an absent key with the response, an
    empty request set and the expiration time [now + ttl] (the zero time when
    [ttl = 0]), and returns an empty set; on a present key it replaces the
    response and the expiration time in the same way, keeps the requests and
    returns them. *)
Theorem SetResponse_spec (key : string) (response : DiscoveryResponse) (now : time.Time)
    (w : world) :
  wf w → 0 ≤ lru.MaxEntries (cache_ (self w)) →
  ∃ requests w' r',
    SetResponse key response now w = Done ((requests, None), w') ∧
    entryOf key w' = Some (VResource r') ∧
    Resp r' = Some response ∧
    ExpirationTime r' = getExpirationTime (self w) now ∧
    (0 < ttl (self w) → ExpirationTime r' = now + ttl (self w)) ∧
    (ttl (self w) = 0 → ExpirationTime r' = time.Zero) ∧
    requestSet requests = requestSet (Requests r') ∧
    (entryOf key w = None →
       requests = None ∧ Requests r' = Some ∅ ∧ requestSet requests = ∅) ∧
    (∀ r, entryOf key w = Some (VResource r) →
       requests = Requests r ∧ Requests r' = Requests r).
Proof.
  intros Hwf Hmax.
  assert (∀ r', ExpirationTime r' = getExpirationTime (self w) now →
    (0 < ttl (self w) → ExpirationTime r' = now + ttl (self w)) ∧
    (ttl (self w) = 0 → ExpirationTime r' = time.Zero)) as Hexp.
  { intros r' ->. unfold getExpirationTime, time.Add. split; intros Httl.
    - by rewrite (proj2 (Z.ltb_lt _ _) Httl).
    - by rewrite Httl. }
  destruct (entryOf key w) as [v|] eqn:Hv.
  - destruct (entryOf_wf key v w Hwf Hv) as (r & -> & Hr).
    exists (Requests r), (put key (responded (self w) response (Requests r) now) w),
           (responded (self w) response (Requests r) now).
    rewrite (SetResponse_present _ _ _ _ r) by done.
    rewrite entryOf_put, decide_True by done.
    split_and!; try done; try (by apply Hexp).
    by intros r0 [= <-].
  - destruct (Add_spec key (responded (self w) response (Some ∅) now) w)
      as (w' & HAdd & _ & _ & _ & Hkey & _); [done..|].
    exists None, w', (responded (self w) response (Some ∅) now).
    rewrite SetResponse_absent by done. unfold mbind, M_bind. rewrite HAdd.
    split_and!; try done; try (by apply Hexp).
    apply Hkey. by right.
Qed.

Lemma SetResponse_spec_witness :
  ∃ requests w' r',
    SetResponse "key_A" testDiscoveryResponse 0 (emptyWorld 1 10)
      = Done ((requests, None), w') ∧
    entryOf "key_A" w' = Some (VResource r') ∧
    Resp r' = Some testDiscoveryResponse ∧
    ExpirationTime r' = getExpirationTime (self (emptyWorld 1 10)) 0 ∧
    (0 < ttl (self (emptyWorld 1 10)) →
       ExpirationTime r' = 0 + ttl (self (emptyWorld 1 10))) ∧
    (ttl (self (emptyWorld 1 10)) = 0 → ExpirationTime r' = time.Zero) ∧
    requestSet requests = requestSet (Requests r') ∧
    (entryOf "key_A" (emptyWorld 1 10) = None →
       requests = None ∧ Requests r' = Some ∅ ∧ requestSet requests = ∅) ∧
    (∀ r, entryOf "key_A" (emptyWorld 1 10) = Some (VResource r) →
       requests = Requests r ∧ Requests r' = Requests r).
Proof.
  apply (SetResponse_spec "key_A" testDiscoveryResponse 0 (emptyWorld 1 10)).
  - apply wf_emptyWorld.
  - simpl. lia.
Defined.

(** [NewCache] takes a negative [maxEntries] as it comes.  [lru.Add] then
    removes the entry it has just added, for the list is always longer than
    [MaxEntries]: this is why [SetResponse_spec] asks for [0 ≤ MaxEntries]. *)
Example SetResponse_negative_MaxEntries :
  NewCache (-1) 10 = (Some (mkcache (lru.mkCache (-1) []) 10), None) ∧
  SetResponse "key_A" testDiscoveryResponse 0 (emptyWorld (-1) 10)
  = Done ((None, None),
          mkWorld (mkcache (lru.mkCache (-1) []) 10)
                  [("key_A", {| Resp := Some testDiscoveryResponse; Requests := Some ∅;
                                ExpirationTime := 10 |})]).
Proof. split; reflexivity. Qed.

(** C4: [SetResponse] on an entry that is expired but still in the cache
    keeps the entry, with the new response and the deadline counted from the
    time of the call; a [Fetch] that is not later than this deadline returns
    the entry with the new response. *)
Theorem SetResponse_resurrects (key : string) (response : DiscoveryResponse)
    (now t1 t2 : time.Time) (w : world) (r : Resource) :
  entryOf key w = Some (VResource r) →
  isExpired r now = true →
  (0 < ttl (self w) → t1 ≤ now + ttl (self w)) →
  ∃ w1 w2 r',
    SetResponse key response now w = Done ((Requests r, None), w1) ∧
    entryOf key w1 = Some (VResource r') ∧
    Resp r' = Some response ∧
    ExpirationTime r' = getExpirationTime (self w) now ∧
    (0 < ttl (self w) → ExpirationTime r < ExpirationTime r') ∧
    Fetch key t1 t2 w1 = Done ((Some r', None), w2) ∧
    entryOf key w2 = Some (VResource r') ∧
    evictions w2 = evictions w.
Proof.
  intros Hv Hexp Ht.
  set (r' := responded (self w) response (Requests r) now).
  exists (put key r' w), (touch key (put key r' w)), r'.
  assert (entryOf key (put key r' w) = Some (VResource r')) as Hput
    by (by rewrite entryOf_put, decide_True).
  assert (isExpired r' t1 = false) as Hfresh.
  { unfold isExpired, r', responded, getExpirationTime, time.IsZero, time.Before,
      time.Add, time.Zero. simpl.
    destruct (0 <? ttl (self w)) eqn:Httl; [|done].
    apply Z.ltb_lt in Httl. specialize (Ht Httl).
    destruct (now + ttl (self w) =? 0); [done|]. lia. }
  split_and!; try done.
  - by apply SetResponse_present.
  - intros Httl. revert Hexp. unfold isExpired, r', responded, getExpirationTime,
      time.IsZero, time.Before, time.Add. simpl.
    rewrite (proj2 (Z.ltb_lt _ _) Httl).
    destruct (ExpirationTime r =? 0); [done|]. lia.
  - rewrite Fetch_run, Hput, Hfresh. done.
  - by rewrite entryOf_touch.
  - by destruct (self_touch key (put key r' w)) as (_ & _ & ->).
Qed.

Lemma SetResponse_resurrects_witness :
  ∃ w1 w2 r',
    SetResponse "key_A" testDiscoveryResponse 20 expiringWorld
      = Done ((Requests expiringResource, None), w1) ∧
    entryOf "key_A" w1 = Some (VResource r') ∧
    Resp r' = Some testDiscoveryResponse ∧
    ExpirationTime r' = getExpirationTime (self expiringWorld) 20 ∧
    (0 < ttl (self expiringWorld) → ExpirationTime expiringResource < ExpirationTime r') ∧
    Fetch "key_A" 25 25 w1 = Done ((Some r', None), w2) ∧
    entryOf "key_A" w2 = Some (VResource r') ∧
    evictions w2 = evictions expiringWorld.
Proof.
  apply (SetResponse_resurrects "key_A" testDiscoveryResponse 20 25 25
           expiringWorld expiringResource).
  - reflexivity.
  - reflexivity.
  - simpl. lia.
Defined.

(** ** DeleteRequest *)

Lemma requestSet_detach req r :
  requestSet (Requests (detach req r)) = requestSet (Requests r) ∖ {[req]}.
Proof.
  unfold detach. simpl. destruct (Requests r) as [m|]; simpl.
  - apply dom_delete_L.
  - apply set_eq. intros h. rewrite elem_of_difference, elem_of_empty. tauto.
Qed.

Lemma detach_absent req r : req ∉ requestSet (Requests r) → detach req r = r.
Proof.
  destruct r as [resp [m|] exp]; unfold detach; simpl; [|done].
  intros Hreq. apply not_elem_of_dom in Hreq. by rewrite delete_id.
Qed.

Example twoKeys_built : twoRequests (emptyWorld 2 60) = Done (None, twoKeys).
Proof. reflexivity. Qed.

(** C8, as stated, fails: [DeleteRequest] of a handle that is not in the
    set of a present key does change the cache.  It makes the entry the most
    recently used one, and the next insertion evicts another key. *)
Lemma DeleteRequest_missing_handle_changes_cache :
  (3%positive ∉ requestSet (Requests resourceA)) ∧
  ∃ w', DeleteRequest "key_A" 3%positive twoKeys = Done (None, w') ∧
        entries w' = [(KString "key_A", VResource resourceA);
                      (KString "key_B", VResource resourceB)] ∧
        w' ≠ twoKeys ∧
        (∃ w1, AddRequest "key_C" 4%positive 0 twoKeys = Done (None, w1) ∧
               evictions w1 = [("key_A", resourceA)]) ∧
        (∃ w2, AddRequest "key_C" 4%positive 0 w' = Done (None, w2) ∧
               evictions w2 = [("key_B", resourceB)]).
Proof.
  split.
  - simpl. rewrite dom_singleton_L, elem_of_singleton. discriminate.
  - eexists. split; [vm_compute; reflexivity|]. split; [reflexivity|]. split.
    + intros H. apply (f_equal entries) in H. vm_compute in H. discriminate H.
    + split; eexists; (split; [vm_compute; reflexivity|reflexivity]).
Qed.

(** C8, amended: [DeleteRequest] returns no error on a missing key, where it
    changes nothing, and on a key that holds a [Resource].  There it takes
    the handle out of the requests of the entry and keeps the entry, with
    its response and expiration time, also when no request is left; no other
    key changes its value and nothing is evicted.  With a handle that is not
    in the set every key keeps its value, and the only change is that the
    entry becomes the most recently used one. *)
Theorem DeleteRequest_spec (key : string) (req : Handle) (w : world) :
  match entryOf key w with
  | None => DeleteRequest key req w = Done (None, w)
  | Some (VResource r) =>
      ∃ w', DeleteRequest key req w = Done (None, w') ∧
        entryOf key w' = Some (VResource (detach req r)) ∧
        requestSet (Requests (detach req r)) = requestSet (Requests r) ∖ {[req]} ∧
        Resp (detach req r) = Resp r ∧
        ExpirationTime (detach req r) = ExpirationTime r ∧
        (∀ k, k ≠ key → entryOf k w' = entryOf k w) ∧
        evictions w' = evictions w ∧
        entries w' = (KString key, VResource (detach req r))
                       :: lru.without (KString key) (entries w) ∧
        (req ∉ requestSet (Requests r) →
           detach req r = r ∧ ∀ k, entryOf k w' = entryOf k w)
  | Some (VOther _) =>
      ∃ w', DeleteRequest key req w = Done (Some (ErrCast key), w')
  end.
Proof.
  destruct (entryOf key w) as [[r|n]|] eqn:Hv.
  - exists (put key (detach req r) w).
    split; [by apply DeleteRequest_present|].
    split; [by rewrite entryOf_put, decide_True|].
    split; [apply requestSet_detach|].
    split_and!; try done.
    + intros k Hk. by rewrite entryOf_put, decide_False.
    + intros Hreq. split; [by apply detach_absent|].
      intros k. rewrite entryOf_put. case_decide as Hk; [|done].
      subst k. by rewrite detach_absent.
  - eexists. unfold DeleteRequest, mbind, M_bind. by rewrite Get_run, Hv.
  - by apply DeleteRequest_absent.
Qed.

(** ** Capacity eviction *)

Lemma NewCache_Some maxEntries ttl c :
  NewCache maxEntries ttl = (Some c, None) →
  0 ≤ ttl ∧ mkWorld c [] = emptyWorld maxEntries ttl.
Proof.
  unfold NewCache. destruct (ttl <? 0) eqn:Httl; [done|].
  intros [= <-]. split; [|done]. by apply Z.ltb_ge.
Qed.

(** C6: in a cache built with [maxEntries = 1], [SetResponse] for key [A]
    followed by [AddRequest] for another key [B] evicts the entry of [A]:
    the callback is called once, with [A] and the entry as [SetResponse]
    stored it.  Then [Fetch A] fails with the notFound error, and [Fetch B],
    made before the deadline of [B], returns an entry without response that
    holds the request. *)
Theorem MaxEntries_one_evicts (ttl : time.Duration) (A B : string)
    (response : DiscoveryResponse) (req : Handle)
    (t0 t1 tA tA' tB tB' : time.Time) (c : cache) :
  NewCache 1 ttl = (Some c, None) →
  A ≠ B →
  (0 < ttl → tB ≤ t1 + ttl) →
  let snapshot := {| Resp := Some response; Requests := Some ∅;
                     ExpirationTime := getExpirationTime c t0 |} in
  let rB := {| Resp := None; Requests := Some {[req := true]};
               ExpirationTime := getExpirationTime c t1 |} in
  ∃ w1 w2 w3 w4,
    SetResponse A response t0 (mkWorld c []) = Done ((None, None), w1) ∧
    entryOf A w1 = Some (VResource snapshot) ∧
    evictions w1 = [] ∧
    AddRequest B req t1 w1 = Done (None, w2) ∧
    evictions w2 = [(A, snapshot)] ∧
    entryOf A w2 = None ∧
    Fetch A tA tA' w2 = Done ((None, Some (ErrNoValue A)), w3) ∧
    Fetch B tB tB' w3 = Done ((Some rB, None), w4) ∧
    Resp rB = None ∧
    evictions w4 = [(A, snapshot)].
Proof.
  intros Hnew HAB Ht. apply NewCache_Some in Hnew as [Httl Hc].
  rewrite Hc. destruct c as [l ttl']. injection Hc as -> ->. simpl.
  set (snapshot := {| Resp := Some response; Requests := Some ∅;
                      ExpirationTime := getExpirationTime _ t0 |}).
  set (rB := {| Resp := None; Requests := Some {[req := true]};
                ExpirationTime := getExpirationTime _ t1 |}).
  set (w1 := put A snapshot (emptyWorld 1 ttl)).
  set (w2 := mkWorld (mkcache (lru.mkCache 1 [(KString B, VResource rB)]) ttl)
                     [(A, snapshot)]).
  assert (entryOf A w2 = None) as HA2.
  { unfold entryOf, w2, entries. simpl. rewrite decide_False by congruence. done. }
  assert (entryOf B w2 = Some (VResource rB)) as HB2.
  { unfold entryOf, w2, entries. simpl. by rewrite decide_True. }
  assert (isExpired rB tB = false) as HrB.
  { unfold isExpired, rB, getExpirationTime, time.IsZero, time.Before, time.Add. simpl.
    destruct (0 <? ttl) eqn:H0; [|done]. apply Z.ltb_lt in H0. specialize (Ht H0).
    destruct (t1 + ttl =? 0); [done|]. lia. }
  exists w1, w2, w2, (touch B w2). split_and!.
  - rewrite SetResponse_absent by done. unfold mbind, M_bind.
    by rewrite Add_absent_room.
  - unfold w1. by rewrite entryOf_put, decide_True.
  - done.
  - rewrite AddRequest_absent.
    2:{ unfold w1. by rewrite entryOf_put, decide_False. }
    unfold mbind, M_bind, cache_Add, with_lru, lru.Add. unfold_M. simpl.
    rewrite decide_False by congruence. done.
  - done.
  - done.
  - by rewrite Fetch_run, HA2, touch_absent.
  - by rewrite Fetch_run, HB2, HrB.
  - done.
  - by destruct (self_touch B w2) as (_ & _ & ->).
Qed.

Lemma MaxEntries_one_evicts_witness :
  let c := mkcache (lru.mkCache 1 []) 60 in
  let snapshot := {| Resp := Some testDiscoveryResponse; Requests := Some ∅;
                     ExpirationTime := getExpirationTime c 0 |} in
  let rB := {| Resp := None; Requests := Some {[2%positive := true]};
               ExpirationTime := getExpirationTime c 1 |} in
  ∃ w1 w2 w3 w4,
    SetResponse "key_A" testDiscoveryResponse 0 (mkWorld c []) = Done ((None, None), w1) ∧
    entryOf "key_A" w1 = Some (VResource snapshot) ∧
    evictions w1 = [] ∧
    AddRequest "key_B" 2%positive 1 w1 = Done (None, w2) ∧
    evictions w2 = [("key_A", snapshot)] ∧
    entryOf "key_A" w2 = None ∧
    Fetch "key_A" 2 2 w2 = Done ((None, Some (ErrNoValue "key_A")), w3) ∧
    Fetch "key_B" 3 3 w3 = Done ((Some rB, None), w4) ∧
    Resp rB = None ∧
    evictions w4 = [("key_A", snapshot)].
Proof.
  apply (MaxEntries_one_evicts 60 "key_A" "key_B" testDiscoveryResponse 2%positive
           0 1 2 2 3 3 (mkcache (lru.mkCache 1 []) 60)).
  - reflexivity.
  - discriminate.
  - simpl. lia.
Defined.

(** ** Well-formed states *)

Lemma requestSet_attach req r :
  Requests r ≠ None → requestSet (Requests (attach req r)) = {[req]} ∪ requestSet (Requests r).
Proof.
  unfold attach. simpl. destruct (Requests r) as [m|]; [|done]. intros _. simpl.
  apply dom_insert_L.
Qed.

Lemma attached_put h k key r w :
  attached h k (put key r w) ↔
  if decide (key = k) then h ∈ requestSet (Requests r) else attached h k w.
Proof.
  unfold attached. rewrite entryOf_put. case_decide; [|done].
  split; [by intros (? & [= <-] & ?)|eauto].
Qed.

Lemma attached_touch h k key w : attached h k (touch key w) ↔ attached h k w.
Proof. unfold attached. by rewrite entryOf_touch. Qed.

Lemma attached_evict h k key r w : attached h k (evict key r w) → attached h k w.
Proof.
  unfold attached. rewrite entryOf_evict.
  case_decide; [by intros (? & [=] & _)|done].
Qed.

Lemma Fetch_wf key now1 now2 w :
  wf w →
  ∃ resource err w',
    Fetch key now1 now2 w = Done ((resource, err), w') ∧ wf w' ∧
    is_typeMismatch err = false ∧
    (∀ r, resource = Some r → entryOf key w = Some (VResource r)) ∧
    (∀ h k, attached h k w' → attached h k w).
Proof.
  intros Hwf. rewrite Fetch_run. destruct (entryOf key w) as [v|] eqn:Hv.
  - destruct (entryOf_wf key v w Hwf Hv) as (r & -> & Hr).
    destruct (isExpired r now1 && isExpired r now2).
    + eexists _, _, _. split; [done|]. split_and!; [by apply wf_evict|done|done|].
      intros h k. apply attached_evict.
    + eexists _, _, _. split; [done|]. split_and!; [by apply wf_touch|done| |].
      * by intros ? [= <-].
      * intros h k. by rewrite attached_touch.
  - eexists _, _, _. split; [done|]. split_and!; [by apply wf_touch|done|done|].
    intros h k. by rewrite attached_touch.
Qed.

Lemma Add_attached key r w w' h k :
  wf w → Requests r ≠ None → cache_Add key r w = Done ((), w') →
  attached h k w' →
  if decide (k = key) then h ∈ requestSet (Requests r) else attached h k w.
Proof.
  intros Hwf Hr HAdd (r' & Hk & Hh).
  destruct (Add_spec key r w Hwf Hr) as (w'' & HAdd' & _ & _ & Hframe & _).
  rewrite HAdd in HAdd'. injection HAdd' as <-.
  specialize (Hframe k _ Hk). case_decide.
  - by injection Hframe as ->.
  - by exists r'.
Qed.

Lemma SetResponse_wf key response now w :
  wf w →
  ∃ requests w',
    SetResponse key response now w = Done ((requests, None), w') ∧ wf w' ∧
    (∀ h k, attached h k w' → attached h k w) ∧
    (∀ m, requests = Some m →
       ∃ r, entryOf key w = Some (VResource r) ∧ Requests r = Some m ∧
            entryOf key w' = Some (VResource (responded (self w) response (Some m) now))).
Proof.
  intros Hwf. destruct (entryOf key w) as [v|] eqn:Hv.
  - destruct (entryOf_wf key v w Hwf Hv) as (r & -> & Hr).
    rewrite (SetResponse_present _ _ _ _ r) by done.
    eexists _, _. split; [done|]. split_and!.
    + by apply wf_put.
    + intros h k. rewrite attached_put. case_decide as Hk; [|done].
      subst k. by exists r.
    + intros m Hm. exists r. rewrite entryOf_put, decide_True by done. by rewrite Hm.
  - destruct (Add_spec key (responded (self w) response (Some ∅) now) w)
      as (w' & HAdd & Hwf' & _); [done..|].
    rewrite SetResponse_absent by done. unfold mbind, M_bind. rewrite HAdd.
    eexists _, _. split; [done|]. split_and!; [done| |done].
    intros h k Hatt.
    assert (Requests (responded (self w) response (Some ∅) now) ≠ None) as Hr by done.
    pose proof (Add_attached _ _ _ _ h k Hwf Hr HAdd Hatt) as Hin.
    case_decide; [|done]. exfalso. revert Hin. simpl. rewrite dom_empty_L.
    apply not_elem_of_empty.
Qed.

Lemma AddRequest_wf key req now w :
  wf w →
  ∃ w', AddRequest key req now w = Done (None, w') ∧ wf w' ∧
    (∀ h k, attached h k w' → attached h k w ∨ (h = req ∧ k = key)).
Proof.
  intros Hwf. destruct (entryOf key w) as [v|] eqn:Hv.
  - destruct (entryOf_wf key v w Hwf Hv) as (r & -> & Hr).
    destruct (Requests r) as [m|] eqn:Hm; [|done].
    rewrite (AddRequest_present _ _ _ _ r m) by done.
    eexists. split; [done|]. split.
    + apply wf_put; [|done]. unfold attach. by rewrite Hm.
    + intros h k. rewrite attached_put. case_decide as Hk; [|by left].
      subst k. rewrite requestSet_attach by by rewrite Hm.
      rewrite elem_of_union, elem_of_singleton. intros [->|Hh]; [by right|].
      left. exists r. by rewrite Hm in *.
  - destruct (Add_spec key (requested (self w) req now) w)
      as (w' & HAdd & Hwf' & _); [done..|].
    rewrite AddRequest_absent by done. unfold mbind, M_bind. rewrite HAdd.
    eexists. split; [done|]. split; [done|].
    intros h k Hatt.
    assert (Requests (requested (self w) req now) ≠ None) as Hr by done.
    pose proof (Add_attached _ _ _ _ h k Hwf Hr HAdd Hatt) as Hin.
    case_decide as Hk; [|by left]. right. simpl in Hin.
    rewrite dom_singleton_L, elem_of_singleton in Hin. done.
Qed.

Lemma DeleteRequest_wf key req w :
  wf w →
  ∃ w', DeleteRequest key req w = Done (None, w') ∧ wf w' ∧
    (∀ h k, attached h k w' ↔ attached h k w ∧ ¬ (h = req ∧ k = key)).
Proof.
  intros Hwf. destruct (entryOf key w) as [v|] eqn:Hv.
  - destruct (entryOf_wf key v w Hwf Hv) as (r & -> & Hr).
    rewrite (DeleteRequest_present _ _ _ r) by done.
    eexists. split; [done|]. split.
    + apply wf_put; [|done]. unfold detach. simpl. by destruct (Requests r).
    + intros h k. rewrite attached_put. case_decide as Hk.
      * subst k. rewrite requestSet_detach, elem_of_difference, elem_of_singleton.
        unfold attached. rewrite Hv. split.
        -- intros [Hh Hne]. split; [by exists r|]. by intros [? _].
        -- intros [(r' & [= <-] & Hh) Hne]. split; [done|]. intros ->. by apply Hne.
      * split; [|by intros [? _]]. intros Hatt. split; [done|]. by intros [_ <-].
  - rewrite DeleteRequest_absent by done. eexists. split; [done|]. split; [done|].
    intros h k. split; [|by intros [? _]]. intros Hatt. split; [done|].
    intros [_ ->]. destruct Hatt as (r & Hr & _). by rewrite Hv in Hr.
Qed.

(** ** Every sequence of calls *)

Lemma exec_wf c w :
  wf w → ∃ e w', exec c w = Done (e, w') ∧ is_typeMismatch e = false ∧ wf w'.
Proof.
  intros Hwf. destruct c as [key now1 now2|key now1 now2|key response now|key req now|key req];
    simpl; unfold mbind, M_bind.
  - destruct (Fetch_wf key now1 now2 w Hwf) as (r & e & w' & -> & Hwf' & He & _).
    by eexists _, _.
  - destruct (Fetch_wf key now1 now2 w Hwf) as (r & e & w' & HF & Hwf' & He & _).
    unfold FetchReadOnly, mbind, M_bind. rewrite HF.
    destruct r; by eexists _, _.
  - destruct (SetResponse_wf key response now w Hwf) as (r & w' & -> & Hwf' & _).
    by eexists _, _.
  - destruct (AddRequest_wf key req now w Hwf) as (w' & -> & Hwf' & _).
    by eexists _, _.
  - destruct (DeleteRequest_wf key req w Hwf) as (w' & -> & Hwf' & _).
    by eexists _, _.
Qed.

Lemma run_wf calls w :
  wf w →
  ∃ errs w', run calls w = Done (errs, w') ∧
    Forall (λ e, is_typeMismatch e = false) errs ∧ wf w'.
Proof.
  revert w. induction calls as [|c calls IH]; intros w Hwf; simpl.
  - by eexists _, _.
  - unfold mbind, M_bind.
    destruct (exec_wf c w Hwf) as (e & w1 & -> & He & Hwf1).
    destruct (IH w1 Hwf1) as (es & w2 & -> & Hes & Hwf2).
    eexists _, _. split; [done|]. split; [by constructor|done].
Qed.

(** C9: every sequence of calls on a cache built by [NewCache] runs to its
    end without a panic, so the casts made in the eviction callback succeed;
    no call returns the typeMismatch error; and in the final state every key
    is a string and every value a [Resource]. *)
Theorem typeMismatch_unreachable (maxEntries : Z) (ttl : time.Duration) (c : cache)
    (calls : list call) :
  NewCache maxEntries ttl = (Some c, None) →
  ∃ errs w',
    run calls (mkWorld c []) = Done (errs, w') ∧
    Forall (λ e, is_typeMismatch e = false) errs ∧
    Forall (λ e, ∃ k r, e = (KString k, VResource r)) (entries w').
Proof.
  intros Hnew. apply NewCache_Some in Hnew as [_ ->].
  destruct (run_wf calls (emptyWorld maxEntries ttl)) as (errs & w' & Hrun & Herrs & [Hok _]).
  { apply wf_emptyWorld. }
  exists errs, w'. split_and!; [done..|].
  eapply Forall_impl; [exact Hok|].
  intros [k v] [[k' Hk] [r [Hr _]]]. simpl in *. subst. by eexists _, _.
Qed.

Lemma typeMismatch_unreachable_witness :
  ∃ errs w',
    run testCalls (mkWorld (mkcache (lru.mkCache 1 []) 60) []) = Done (errs, w') ∧
    Forall (λ e, is_typeMismatch e = false) errs ∧
    Forall (λ e, ∃ k r, e = (KString k, VResource r)) (entries w').
Proof.
  apply (typeMismatch_unreachable 1 60 (mkcache (lru.mkCache 1 []) 60) testCalls).
  reflexivity.
Defined.

(** ** The watches of the orchestrator *)

Section Orchestrator_facts.

Variable GetKey : gcp.Request → option string.

Lemma deliveries_snoc fan h log d :
  deliveries fan h (log ++ [d]) =
  (deliveries fan h log + if decide (watch d = h ∧ fanned d = fan) then 1 else 0)%nat.
Proof.
  unfold deliveries. rewrite filter_app, length_app. f_equal.
  rewrite filter_cons, filter_nil. by case_decide.
Qed.

Lemma same_watches_trans o1 o2 o3 :
  same_watches o1 o2 → same_watches o2 o3 → same_watches o1 o3.
Proof. unfold same_watches. intros (-> & -> & ->) (-> & -> & ->). done. Qed.

Lemma foldl_onCacheEvicted o evs :
  cacheOf (foldl onCacheEvicted o evs) = cacheOf o ∧
  same_watches o (foldl onCacheEvicted o evs).
Proof.
  revert o. induction evs as [|e evs IH]; intros o; simpl; [done|].
  destruct (IH (onCacheEvicted o e)) as (Hc & Hsame). split; [by rewrite Hc|].
  eapply same_watches_trans; [|exact Hsame]. done.
Qed.

Lemma onCache_run {A} (m : M A) o a w :
  m (worldOf o) = Done (a, w) →
  ∃ o', onCache m o = Done (a, o') ∧ worldOf o' = mkWorld (self w) [] ∧ same_watches o o'.
Proof.
  intros Hm. unfold onCache. rewrite Hm. eexists. split; [done|].
  match goal with |- context [foldl onCacheEvicted ?o0 ?evs] =>
    destruct (foldl_onCacheEvicted o0 evs) as (Hc & Hsame) end.
  unfold worldOf. rewrite Hc. done.
Qed.

(** A call of the cache that attaches nothing but handles of watches still
    unserved by the fan-out task keeps the invariant. *)
Lemma Inv_step o o' :
  Inv o → wf (worldOf o') → same_watches o o' →
  (∀ h k, attached h k (worldOf o') →
          attached h k (worldOf o) ∨
          (watchKey o !! h = Some k ∧ deliveries true h (sent o) = 0%nat)) →
  Inv o'.
Proof.
  intros [I1 I2 I3 I4 I5] Hwf (Hk & Hn & Hs) Hatt.
  split; rewrite ?Hk, ?Hn, ?Hs; try done.
  - intros h k Hh. destruct (Hatt h k Hh) as [?|[? _]]; eauto.
  - intros h k Hh. destruct (Hatt h k Hh) as [?|[_ ?]]; eauto.
Qed.

Lemma Inv_same_cache o o' :
  Inv o → cacheOf o' = cacheOf o → same_watches o o' → Inv o'.
Proof.
  intros HI Hc Hsame. apply (Inv_step o o' HI); unfold worldOf; rewrite ?Hc; [apply HI|done|].
  intros h k ?. by left.
Qed.

Lemma Inv_shutdown key o : Inv o → Inv (shutdown key o).
Proof. intros HI. by apply (Inv_same_cache o). Qed.

Lemma Inv_subscribe key o : Inv o → ∃ o', subscribe key o = Done ((), o') ∧ Inv o' ∧ same_watches o o'.
Proof. intros HI. eexists. split; [done|]. split; [by apply (Inv_same_cache o)|done]. Qed.

Lemma Inv_receive h o : Inv o → ∃ r o', receive h o = Done (r, o') ∧ Inv o'.
Proof.
  intros [I1 I2 I3 I4 I5]. unfold receive.
  destruct (downstreamResponseMap o !! h) as [[|r ch]|]; eexists _, _; (split; [done|]);
    by split.
Qed.

Lemma Inv_DeleteRequest key h o :
  Inv o →
  ∃ o', onCache (DeleteRequest key h) o = Done (None, o') ∧ Inv o' ∧ same_watches o o' ∧
        (∀ h' k, attached h' k (worldOf o') ↔
                 attached h' k (worldOf o) ∧ ¬ (h' = h ∧ k = key)).
Proof.
  intros HI. destruct (DeleteRequest_wf key h (worldOf o)) as (w' & Hrun & Hwf & Hatt);
    [apply HI|].
  destruct (onCache_run _ o _ _ Hrun) as (o' & -> & Hw & Hsame).
  exists o'. split; [done|]. rewrite Hw. split_and!; [|done|done].
  apply (Inv_step o o' HI); rewrite ?Hw; [done..|].
  intros h' k Hh. left. by apply Hatt in Hh as [? _].
Qed.

Lemma Inv_cancelWatch h o : Inv o → ∃ o', cancelWatch h o = Done ((), o') ∧ Inv o'.
Proof.
  intros HI. unfold cancelWatch. destruct (watchKey o !! h) as [key|]; [|by eexists].
  match goal with |- context [_ ?o0 = Done _] =>
    destruct (Inv_DeleteRequest key h o0) as (o' & Hrun & HI' & _) end.
  { by apply (Inv_same_cache o). }
  unfold mbind, O_bind. rewrite Hrun. by eexists.
Qed.

Lemma Inv_send_immediate h response o :
  Inv o → deliveries false h (sent o) = 0%nat → (h < nextHandle o)%positive →
  ∃ o', send h false response o = Done ((), o') ∧ Inv o' ∧ same_watches o
          {| cacheOf := cacheOf o'; downstreamResponseMap := downstreamResponseMap o';
             upstreamResponseMap := upstreamResponseMap o'; watchKey := watchKey o';
             nextHandle := nextHandle o'; sent := sent o |}.
Proof.
  intros [I1 I2 I3 I4 I5] H0 Hlt. unfold send.
  destruct (downstreamResponseMap o !! h) as [ch|]; [|by eexists].
  eexists. split; [done|]. split; [|done]. split; simpl; try done.
  - intros h' k Hh. rewrite deliveries_snoc. simpl.
    rewrite decide_False by (by intros [_ ?]). rewrite (I3 h' k Hh). done.
  - intros h' b Hle. destruct (I4 h' b Hle) as [Hk Hd]. split; [done|].
    rewrite deliveries_snoc, Hd. simpl. rewrite decide_False; [done|].
    intros [-> _]. lia.
  - intros h' b. rewrite deliveries_snoc. simpl. case_decide as Hd.
    + destruct Hd as [<- <-]. rewrite H0. done.
    + specialize (I5 h' b). lia.
Qed.

Lemma Inv_register key o :
  Inv o →
  ∃ o', register key o = Done (nextHandle o, o') ∧ Inv o' ∧
        watchKey o' !! nextHandle o = Some key ∧
        (∀ b, deliveries b (nextHandle o) (sent o') = 0%nat) ∧
        (nextHandle o < nextHandle o')%positive.
Proof.
  intros [I1 I2 I3 I4 I5]. eexists. split; [done|]. split_and!; simpl.
  - split; simpl; try done.
    + intros h k Hh. rewrite lookup_insert_ne; [by apply I2|].
      intros <-. specialize (I2 _ _ Hh). destruct (I4 (nextHandle o) true) as [Hk _]; [lia|].
      congruence.
    + intros h b Hle. destruct (I4 h b) as [Hk Hd]; [lia|]. split; [|done].
      rewrite lookup_insert_ne; [done|]. lia.
  - by rewrite lookup_insert_eq.
  - intros b. by destruct (I4 (nextHandle o) b) as [_ ?]; [lia|].
  - lia.
Qed.

Lemma Inv_CreateWatch request now now1 now2 o :
  Inv o → ∃ r o', CreateWatch GetKey request now now1 now2 o = Done (r, o') ∧ Inv o'.
Proof.
  intros HI. unfold CreateWatch. destruct (GetKey request) as [key|]; [|by eexists _, _].
  unfold mbind at 1. unfold O_bind.
  destruct (Inv_register key o HI) as (o1 & -> & HI1 & Hkey & Hnone & Hlt).
  set (h := nextHandle o) in *.
  destruct (AddRequest_wf key h now (worldOf o1)) as (w2 & Hadd & Hwf2 & Hatt2); [apply HI1|].
  destruct (onCache_run _ o1 _ _ Hadd) as (o2 & Hrun2 & Hw2 & Hsame2).
  unfold mbind at 1. unfold O_bind. rewrite Hrun2.
  assert (Inv o2) as HI2.
  { apply (Inv_step o1 o2 HI1); rewrite ?Hw2; [done..|].
    intros h' k Hh. destruct (Hatt2 h' k Hh) as [?|[-> ->]]; [by left|right]. done. }
  destruct (Fetch_wf key now1 now2 (worldOf o2)) as (cached & err & w3 & HF & Hwf3 & _ & _ & Hatt3);
    [apply HI2|].
  destruct (onCache_run _ o2 _ _ HF) as (o3 & Hrun3 & Hw3 & Hsame3).
  unfold mbind at 1. unfold O_bind. rewrite Hrun3.
  assert (Inv o3) as HI3.
  { apply (Inv_step o2 o3 HI2); rewrite ?Hw3; [done..|]. intros h' k Hh. left. eauto. }
  pose proof (same_watches_trans _ _ _ Hsame2 Hsame3) as (Hk3 & Hn3 & Hs3).
  assert (∃ o4, match (cached, err).1 ≫= Resp with
                | Some response =>
                    if decide (VersionInfo response = gcp.VersionInfo request)
                    then mret ()
                    else send h false response
                | None => mret ()
                end o3 = Done ((), o4) ∧ Inv o4) as (o4 & Hrun4 & HI4).
  { destruct ((cached, err).1 ≫= Resp) as [response|]; [|by eexists].
    case_decide; [by eexists|].
    destruct (Inv_send_immediate h response o3) as (o4 & ? & ? & _); [done| |lia|by eexists].
    rewrite Hs3. apply Hnone. }
  unfold mbind at 1. unfold O_bind. rewrite Hrun4.
  destruct (Inv_subscribe key o4 HI4) as (o5 & Hrun5 & HI5 & _).
  unfold mbind, O_bind. rewrite Hrun5. by eexists _, _.
Qed.

(** One turn of the fan-out loop. *)
Lemma Inv_fanout_one key response h o :
  Inv o → attached h key (worldOf o) →
  ∃ o', (send h true response ≫= (λ _, onCache (DeleteRequest key h))) o = Done (None, o') ∧
        Inv o' ∧
        (∀ h', h' ≠ h → attached h' key (worldOf o) → attached h' key (worldOf o')).
Proof.
  intros HI Hh. unfold mbind, O_bind, send.
  destruct (downstreamResponseMap o !! h) as [ch|] eqn:Hch.
  - match goal with |- context [onCache _ ?o0] => set (o1 := o0) end.
    destruct (DeleteRequest_wf key h (worldOf o1)) as (w' & Hrun & Hwf & Hatt); [apply HI|].
    destruct (onCache_run _ o1 _ _ Hrun) as (o' & -> & Hw & Hk & Hn & Hs).
    exists o'. split; [done|]. destruct HI as [I1 I2 I3 I4 I5].
    assert (∀ h' k, attached h' k (worldOf o') → attached h' k (worldOf o) ∧ h' ≠ h) as Hold.
    { intros h' k Hh'. rewrite Hw in Hh'. apply Hatt in Hh' as [Hh' Hne].
      split; [done|]. intros ->. apply Hne. split; [done|].
      pose proof (I2 _ _ Hh) as H1. pose proof (I2 _ _ Hh') as H2. congruence. }
    split; [split|]; rewrite ?Hk, ?Hn, ?Hs; simpl.
    + by rewrite Hw.
    + intros h' k Hh'. apply Hold in Hh' as [Hh' _]. eauto.
    + intros h' k Hh'. apply Hold in Hh' as [Hh' Hne].
      rewrite deliveries_snoc. simpl. rewrite decide_False by (by intros [? _]).
      by rewrite (I3 h' k).
    + intros h' b Hle. destruct (I4 h' b Hle) as [Hk' Hd]. split; [done|].
      rewrite deliveries_snoc, Hd. simpl. rewrite decide_False; [done|].
      intros [-> _]. specialize (I2 _ _ Hh). congruence.
    + intros h' b. rewrite deliveries_snoc. simpl. case_decide as Hd.
      * destruct Hd as [<- <-]. by rewrite (I3 h key).
      * specialize (I5 h' b). lia.
    + intros h' Hne Hh'. rewrite Hw. apply Hatt. split; [done|]. by intros [? _].
  - destruct (Inv_DeleteRequest key h o HI) as (o' & -> & HI' & _ & Hatt).
    exists o'. split; [done|]. split; [done|].
    intros h' Hne Hh'. apply Hatt. split; [done|]. by intros [? _].
Qed.

Lemma Inv_fanout key response hs o :
  Inv o → NoDup hs → (∀ h, h ∈ hs → attached h key (worldOf o)) →
  ∃ o', fanout key response hs o = Done ((), o') ∧ Inv o'.
Proof.
  revert o. induction hs as [|h hs IH]; intros o HI Hnd Hall; simpl; [by eexists|].
  apply NoDup_cons in Hnd as [Hh Hnd].
  destruct (Inv_fanout_one key response h o HI) as (o1 & Hrun & HI1 & Hkeep).
  { apply Hall, list_elem_of_here. }
  unfold mbind, O_bind in *.
  destruct (send h true response o) as [[[] os]|]; [|done]. rewrite Hrun.
  apply IH; [done..|]. intros h' Hh'. apply Hkeep.
  - by intros ->.
  - by apply Hall, list_elem_of_further.
Qed.

Lemma Inv_upstreamResponse key response now o :
  Inv o → ∃ o', upstreamResponse key response now o = Done ((), o') ∧ Inv o'.
Proof.
  intros HI. unfold upstreamResponse. case_decide; [|by eexists].
  destruct (SetResponse_wf key response now (worldOf o))
    as (requests & w1 & HS & Hwf1 & Hatt1 & Hreq); [apply HI|].
  destruct (onCache_run _ o _ _ HS) as (o1 & Hrun1 & Hw1 & Hsame1).
  unfold mbind, O_bind. rewrite Hrun1. simpl.
  apply Inv_fanout.
  - apply (Inv_step o o1 HI); rewrite ?Hw1; [done..|]. intros h k Hh. left. eauto.
  - apply NoDup_elements.
  - intros h Hh. apply elem_of_elements in Hh. rewrite Hw1.
    destruct requests as [m|]; [|by apply not_elem_of_empty in Hh].
    destruct (Hreq m eq_refl) as (r & _ & _ & Hkey).
    by eexists.
Qed.

Lemma Inv_step_event e o : Inv o → ∃ o', step GetKey e o = Done ((), o') ∧ Inv o'.
Proof.
  intros HI. destruct e as [request now now1 now2|h|key response now|key|key|h]; simpl.
  - destruct (Inv_CreateWatch request now now1 now2 o HI) as (r & o' & Hrun & HI').
    unfold mbind, O_bind. rewrite Hrun. by eexists.
  - by apply Inv_cancelWatch.
  - by apply Inv_upstreamResponse.
  - eexists. split; [done|]. by apply Inv_shutdown.
  - eexists. split; [done|]. by apply Inv_shutdown.
  - destruct (Inv_receive h o HI) as (r & o' & Hrun & HI').
    unfold mbind, O_bind. rewrite Hrun. by eexists.
Qed.

Lemma Inv_steps es o : Inv o → ∃ o', steps GetKey es o = Done ((), o') ∧ Inv o'.
Proof.
  revert o. induction es as [|e es IH]; intros o HI; simpl; [by eexists|].
  destruct (Inv_step_event e o HI) as (o1 & Hrun & HI1).
  unfold mbind, O_bind. rewrite Hrun. by apply IH.
Qed.

Lemma Inv_newOrchestrator c : unattended c → Inv (newOrchestrator c).
Proof.
  intros [Hwf Hnone]. split; try done.
  - intros h k Hh. by apply Hnone in Hh.
  - intros h b. unfold deliveries. simpl. lia.
Qed.

Lemma unattended_NewCache maxEntries ttl c :
  NewCache maxEntries ttl = (Some c, None) → unattended c.
Proof.
  intros Hnew. apply NewCache_Some in Hnew as [_ Hc].
  unfold unattended. rewrite Hc. split.
  - apply wf_emptyWorld.
  - by intros h k (r & Hr & _).
Qed.

Lemma deliveriesTo_split h log :
  deliveriesTo h log = (deliveries false h log + deliveries true h log)%nat.
Proof.
  unfold deliveriesTo, deliveries. induction log as [|[h' [|] r] log IH]; [done|..];
    rewrite !filter_cons; simpl; repeat case_decide; simpl; try lia; naive_solver.
Qed.

(** C2, amended: whatever the events, the orchestrator runs without a panic,
    and the channel of a watch gets at most one response from [CreateWatch]
    itself, the cached one, and at most one from the fan-out task: at most
    two in all. *)
Theorem one_delivery_of_each_kind (c : cache) (es : list event) :
  unattended c →
  ∃ o, steps GetKey es (newOrchestrator c) = Done ((), o) ∧
       ∀ h, (deliveries false h (sent o) ≤ 1)%nat ∧
            (deliveries true h (sent o) ≤ 1)%nat ∧
            (deliveriesTo h (sent o) ≤ 2)%nat.
Proof.
  intros Hc. destruct (Inv_steps es (newOrchestrator c)) as (o & Hrun & HI).
  { by apply Inv_newOrchestrator. }
  exists o. split; [done|]. intros h. rewrite deliveriesTo_split.
  pose proof (inv_once o HI h false). pose proof (inv_once o HI h true). lia.
Qed.

End Orchestrator_facts.

(** ** [TestCachedResponse] *)

Example preloadedCache_built :
  SetResponse "lds" mockResponse 0 (emptyWorld 1000 3600000000000)
  = Done ((None, None), mkWorld preloadedCache []).
Proof. reflexivity. Qed.

(** C2, as stated, fails: the watch made by [CreateWatch] gets the cached
    response at once and the next upstream response from the fan-out task,
    two responses on one channel, as [TestCachedResponse] expects. *)
Lemma CreateWatch_gets_two_responses :
  ∃ o1 o2,
    CreateWatch testMapper listenerRequest 1 1 1 (newOrchestrator preloadedCache)
      = Done (Some 1%positive, o1) ∧
    sent o1 = [mkDelivery 1%positive false mockResponse] ∧
    steps testMapper [EvReceive 1%positive; EvUpstream "lds" upstreamResponse2 2;
                      EvReceive 1%positive] o1 = Done ((), o2) ∧
    sent o2 = [mkDelivery 1%positive false mockResponse;
               mkDelivery 1%positive true upstreamResponse2] ∧
    deliveriesTo 1%positive (sent o2) = 2%nat.
Proof.
  eexists _, _. split; [vm_compute; reflexivity|]. split; [reflexivity|].
  split; [vm_compute; reflexivity|]. split; reflexivity.
Qed.

Lemma one_delivery_of_each_kind_witness :
  ∃ o, steps testMapper cachedResponseEvents (newOrchestrator preloadedCache) = Done ((), o) ∧
       ∀ h, (deliveries false h (sent o) ≤ 1)%nat ∧
            (deliveries true h (sent o) ≤ 1)%nat ∧
            (deliveriesTo h (sent o) ≤ 2)%nat.
Proof.
  apply (one_delivery_of_each_kind testMapper preloadedCache cachedResponseEvents).
  split.
  - split.
    + constructor; [|constructor]. split; simpl; eauto.
    + simpl. apply NoDup_singleton.
  - intros h k (r & Hr & Hh). unfold entryOf in Hr. simpl in Hr.
    destruct (decide (KString "lds" = KString k)); [|discriminate Hr].
    injection Hr as <-. simpl in Hh. rewrite dom_empty_L in Hh.
    by apply not_elem_of_empty in Hh.
Defined.

(** ** The tests of the cache

    Each test of [cache_test.go] passes on the embedding. *)

Example TestAddRequestAndFetch_passes :
  ∃ w, TestAddRequestAndFetch (emptyWorld 1 (60 * second))
       = Done (((None, Some (ErrNoValue "key_A")), None, (Some None, None)), w).
Proof. eexists. vm_compute. reflexivity. Qed.

Example TestSetResponseAndFetch_passes :
  ∃ w, TestSetResponseAndFetch (emptyWorld 1 (60 * second))
       = Done (((None, Some (ErrNoValue "key_A")), (None, None),
                (Some (Some testDiscoveryResponse), None)), w).
Proof. eexists. vm_compute. reflexivity. Qed.

Example TestAddRequestAndSetResponse_passes :
  ∃ w requests,
    TestAddRequestAndSetResponse (emptyWorld 2 (60 * second))
      = Done ((None, None, (Some requests, None),
               (Some (Some testDiscoveryResponse), None)), w) ∧
    size requests = 2%nat ∧
    requests !! testRequestA = Some true ∧ requests !! testRequestB = Some true.
Proof. eexists _, _. split; [vm_compute; reflexivity|]. split_and!; reflexivity. Qed.

Example TestMaxEntries_passes :
  ∃ w snapshot,
    TestMaxEntries (emptyWorld 1 (60 * second))
      = Done ((None, (Some (Some testDiscoveryResponse), None), None,
               (None, Some (ErrNoValue "key_A")), (Some None, None)), w) ∧
    evictions w = [("key_A", snapshot)].
Proof. eexists _, _. split; [vm_compute; reflexivity|reflexivity]. Qed.

Example TestTTL_Enabled_passes :
  ∃ w snapshot,
    TestTTL_Enabled (emptyWorld 1 (10 * millisecond))
      = Done ((None, (Some (Some testDiscoveryResponse), None), (None, None),
               (None, Some (ErrNoValue "key_A"))), w) ∧
    evictions w = [("key_A", snapshot)].
Proof. eexists _, _. split; [vm_compute; reflexivity|reflexivity]. Qed.

Example TestTTL_Disabled_passes (now now1 now2 : time.Time) :
  ∃ w1 w2,
    SetResponse testKeyA testDiscoveryResponse now (emptyWorld 1 0)
      = Done ((None, None), w1) ∧
    Fetch testKeyA now1 now2 w1 = Done ((Some testResource, None), w2).
Proof.
  eexists _, _. split; [vm_compute; reflexivity|]. by rewrite Fetch_run.
Qed.

Example TestTTL_Negative_passes :
  NewCache 1 (-1) = (None, Some (ErrNegativeTTL (-1))).
Proof. reflexivity. Qed.

Example TestIsExpired_passes (now : time.Time) (resource : Resource) :
  0 < now →
  isExpired (mkResource (Resp resource) (Requests resource) time.Zero) now = false ∧
  isExpired (mkResource (Resp resource) (Requests resource) now) time.Zero = false ∧
  isExpired (mkResource (Resp resource) (Requests resource) now) (time.Add now 1) = true.
Proof.
  intros Hnow. unfold isExpired, time.IsZero, time.Before, time.Add, time.Zero. simpl.
  split; [done|]. destruct (now =? 0) eqn:H0; [lia|]. split; lia.
Qed.

Example TestGetExpirationTime_passes (l : lru.Cache) (currentTime : time.Time) :
  getExpirationTime (mkcache l 0) currentTime = time.Zero ∧
  getExpirationTime (mkcache l second) currentTime = currentTime + second.
Proof. done. Qed.

Example TestDeleteRequest_passes :
  ∃ w requests,
    TestDeleteRequest (emptyWorld 1 (60 * second))
      = Done ((None, None, None, (Some requests, None), None), w) ∧
    size requests = 0%nat.
Proof. eexists _, _. split; [vm_compute; reflexivity|reflexivity]. Qed.

(** ** The tests of the orchestrator

    The tests of [orchestrator_test.go] pass on the orchestrator modelled
    from the spec; [TestCachedResponse] reads two responses from the channel
    of its first watch and none from the channel of the second. *)

Example TestGoldenPath_passes :
  ∃ o, TestGoldenPath (newOrchestrator (mkcache (lru.mkCache 1000 []) 3600000000000))
       = Done ((Some 1%positive, (1%nat, 1%nat), Some ldsResponse, 0%nat, 0%nat), o).
Proof. eexists. vm_compute. reflexivity. Qed.

Example TestCachedResponse_passes :
  ∃ o, TestCachedResponse (newOrchestrator preloadedCache)
       = Done ((Some 1%positive, (1%nat, 1%nat), Some mockResponse, Some upstreamResponse2,
                Some 2%positive, (2%nat, 1%nat), None, (1%nat, 0%nat), (0%nat, 0%nat)), o).
Proof. eexists. vm_compute. reflexivity. Qed.

Example TestMultipleWatchesAndUpstreams_passes :
  ∃ o, TestMultipleWatchesAndUpstreams
         (newOrchestrator (mkcache (lru.mkCache 1000 []) 3600000000000))
       = Done ((Some ldsResponse, Some ldsResponse, Some cdsResponse,
                (3%nat, 2%nat), 0%nat, 0%nat), o).
Proof. eexists. vm_compute. reflexivity. Qed.

(** * Further properties of the cache *)

(** ** The effect of each call *)

Lemma put_put key r r' w : put key r (put key r' w) = put key r w.
Proof.
  unfold put. by rewrite set_ll_set_ll, set_ll_entries, without_cons_eq, without_idemp.
Qed.

Lemma put_head key r rest w :
  wf w → entries w = (KString key, VResource r) :: rest → put key r w = w.
Proof.
  destruct w as [[[m l] t] ev]. unfold wf, put, set_ll, entries. simpl.
  intros [_ Hnd] ->. rewrite without_cons_eq, without_absent; [done|].
  simpl in Hnd. apply NoDup_cons in Hnd as [Hk _]. by apply lookup_None_keys.
Qed.

Lemma full_false_or (w : world) :
  0 ≤ lru.MaxEntries (cache_ (self w)) → full w = true → entries w ≠ [].
Proof.
  unfold full. intros Hmax Hfull Hnil. rewrite Hnil in Hfull. simpl in Hfull.
  apply andb_true_iff in Hfull as [H1 H2].
  apply negb_true_iff, Z.eqb_neq in H1. apply Z.ltb_lt in H2. lia.
Qed.

(** [c.cache.Add] of an absent key: either there is room, or the entry at the
    back of the list goes to the callback. *)
Lemma Add_absent_cases key r w w' :
  wf w → Requests r ≠ None → entryOf key w = None →
  cache_Add key r w = Done ((), w') →
  (full w = false ∧ w' = put key r w) ∨
  (full w = true ∧ ∃ l0 k0 r0,
     (KString key, VResource r) :: entries w = l0 ++ [(KString k0, VResource r0)] ∧
     w' = mkWorld (self (set_ll l0 w)) (evictions w ++ [(k0, r0)])).
Proof.
  intros Hwf Hr Hk HAdd. destruct (full w) eqn:Hfull.
  - right. split; [done|].
    destruct (Add_absent_full key r w) as (l0 & k0 & r0 & Hl0 & HAdd'); [done..|].
    rewrite HAdd in HAdd'. injection HAdd' as ->. by exists l0, k0, r0.
  - left. split; [done|]. rewrite Add_absent_room in HAdd by done. by injection HAdd.
Qed.

Lemma created_made c r : created c r → Requests r ≠ None.
Proof. by intros [(? & ? & ->)|(? & ? & ->)]. Qed.

Lemma derived_made c r r' : Requests r ≠ None → derived c r r' → Requests r' ≠ None.
Proof.
  intros Hr [(? & ? & ->)|[(? & _ & ->)|(? & ->)]]; simpl; [done|..];
    by destruct (Requests r).
Qed.

Lemma exec_effect c w e w' :
  wf w → exec c w = Done (e, w') → effect (keyOf c) w w'.
Proof.
  intros Hwf. destruct c as [key now1 now2|key now1 now2|key response now|key req now|key req];
    simpl; unfold mbind, M_bind.
  - rewrite Fetch_run. destruct (entryOf key w) as [[r|n]|] eqn:Hv.
    + destruct (isExpired r now1 && isExpired r now2); intros [= <- <-].
      * by eapply effect_evict.
      * by apply effect_touch.
    + intros [= <- <-]. by apply effect_touch.
    + intros [= <- <-]. by apply effect_touch.
  - unfold FetchReadOnly, mbind, M_bind. rewrite Fetch_run.
    destruct (entryOf key w) as [[r|n]|] eqn:Hv.
    + destruct (isExpired r now1 && isExpired r now2); intros [= <- <-].
      * by eapply effect_evict.
      * by apply effect_touch.
    + intros [= <- <-]. by apply effect_touch.
    + intros [= <- <-]. by apply effect_touch.
  - destruct (entryOf key w) as [v|] eqn:Hv.
    + destruct (entryOf_wf key v w Hwf Hv) as (r & -> & Hr).
      rewrite (SetResponse_present _ _ _ _ r) by done. intros [= <- <-].
      eapply effect_put; [done| |done]. left. by eexists _, _.
    + rewrite SetResponse_absent by done. unfold mbind, M_bind.
      destruct (cache_Add key _ w) as [[[] w1]|] eqn:HAdd; [|done].
      intros [= <- <-]. eapply effect_add; [done| |done]. left. by eexists _, _.
  - destruct (entryOf key w) as [v|] eqn:Hv.
    + destruct (entryOf_wf key v w Hwf Hv) as (r & -> & Hr).
      destruct (Requests r) as [m|] eqn:Hm; [|done].
      rewrite (AddRequest_present _ _ _ _ r m) by done. intros [= <- <-].
      eapply effect_put; [done| |done]. right. left. exists req. by rewrite Hm.
    + rewrite AddRequest_absent by done. unfold mbind, M_bind.
      destruct (cache_Add key _ w) as [[[] w1]|] eqn:HAdd; [|done].
      intros [= <- <-]. eapply effect_add; [done| |done]. right. by eexists _, _.
  - destruct (entryOf key w) as [v|] eqn:Hv.
    + destruct (entryOf_wf key v w Hwf Hv) as (r & -> & Hr).
      rewrite (DeleteRequest_present _ _ _ r) by done. intros [= <- <-].
      eapply effect_put; [done| |done]. right. right. by exists req.
    + rewrite DeleteRequest_absent by done. intros [= <- <-].
      apply effect_touch. by rewrite touch_absent.
Qed.

(** ** Properties kept by every call *)

Section Invariants.

Variable P : world → Prop.

Hypothesis P_touch : ∀ key w, wf w → P w → P (touch key w).
Hypothesis P_evict : ∀ key r w,
  wf w → entryOf key w = Some (VResource r) → P w → P (evict key r w).
Hypothesis P_put : ∀ key r r' w,
  wf w → entryOf key w = Some (VResource r) → derived (self w) r r' → P w →
  P (put key r' w).
Hypothesis P_add : ∀ key r' w w',
  wf w → entryOf key w = None → created (self w) r' →
  cache_Add key r' w = Done ((), w') → P w → P w'.

Lemma exec_preserves c w e w' : wf w → P w → exec c w = Done (e, w') → P w'.
Proof.
  intros Hwf HP Hexec.
  destruct (exec_effect c w e w' Hwf Hexec) as [->|r Hr ->|r r' Hr Hd ->|r' Hk Hc HAdd]; eauto.
Qed.

End Invariants.

Lemma run_invariant (P : world → Prop) :
  (∀ c w e w', wf w → P w → exec c w = Done (e, w') → P w') →
  ∀ calls w, wf w → P w →
    ∃ errs w', run calls w = Done (errs, w') ∧ wf w' ∧ P w'.
Proof.
  intros Hstep calls. induction calls as [|c calls IH]; intros w Hwf HP; simpl.
  - by eexists _, _.
  - unfold mbind, M_bind.
    destruct (exec_wf c w Hwf) as (e & w1 & Hexec & _ & Hwf1). rewrite Hexec.
    destruct (IH w1 Hwf1) as (es & w2 & -> & Hwf2 & HP2).
    { exact (Hstep c w e w1 Hwf HP Hexec). }
    by eexists _, _.
Qed.





Lemma self_put key r w :
  ttl (self (put key r w)) = ttl (self w) ∧
  lru.MaxEntries (cache_ (self (put key r w))) = lru.MaxEntries (cache_ (self w)) ∧
  evictions (put key r w) = evictions w.
Proof. done. Qed.

Lemma self_evict key r w :
  ttl (self (evict key r w)) = ttl (self w) ∧
  lru.MaxEntries (cache_ (self (evict key r w))) = lru.MaxEntries (cache_ (self w)) ∧
  evictions (evict key r w) = evictions w ++ [(key, r)].
Proof. done. Qed.




Lemma getExpirationTime_disabled c now : ttl c = 0 → getExpirationTime c now = time.Zero.
Proof. unfold getExpirationTime. by intros ->. Qed.

Lemma undated_exec c w e w' :
  wf w → undated w → exec c w = Done (e, w') → undated w'.
Proof.
  revert c w e w'. apply exec_preserves.
  - intros key w _ [Httl Hz]. split; [by destruct (self_touch key w) as (-> & _)|].
    intros k r. rewrite entryOf_touch. apply Hz.
  - intros key r w _ _ [Httl Hz]. split; [done|].
    intros k r0. rewrite entryOf_evict. case_decide; [done|apply Hz].
  - intros key r r' w _ Hr Hd [Httl Hz]. split; [done|].
    intros k r0. rewrite entryOf_put. case_decide; [|apply Hz].
    intros [= <-]. destruct Hd as [(? & ? & ->)|[(? & _ & ->)|(? & ->)]]; simpl;
      [by apply getExpirationTime_disabled|by eapply Hz..].
  - intros key r' w w' Hwf Hk Hc HAdd [Httl Hz].
    destruct (Add_spec key r' w Hwf (created_made _ _ Hc))
      as (w'' & HAdd' & _ & Hself & Hframe & _).
    rewrite HAdd in HAdd'. injection HAdd' as <-. split; [by rewrite Hself|].
    intros k r0 Hk0. specialize (Hframe k _ Hk0). case_decide.
    + injection Hframe as ->.
      destruct Hc as [(? & ? & ->)|(? & ? & ->)]; by apply getExpirationTime_disabled.
    + by eapply Hz.
Qed.

(** X9: in a cache built with [ttl = 0] no entry ever expires: after any
    calls, [Fetch] returns every entry that is present, at any time, and
    evicts nothing. *)
Theorem ttl_disabled_never_expires (maxEntries : Z) (c : cache) (calls : list call) :
  NewCache maxEntries 0 = (Some c, None) →
  ∃ errs w',
    run calls (mkWorld c []) = Done (errs, w') ∧
    ∀ key r now1 now2,
      entryOf key w' = Some (VResource r) →
      isExpired r now1 = false ∧
      ∃ w'', Fetch key now1 now2 w' = Done ((Some r, None), w'') ∧
             evictions w'' = evictions w'.
Proof.
  intros Hnew. apply NewCache_Some in Hnew as [_ ->].
  destruct (run_invariant undated undated_exec calls (emptyWorld maxEntries 0))
    as (errs & w' & Hrun & _ & _ & Hz).
  - apply wf_emptyWorld.
  - by split.
  - exists errs, w'. split; [done|]. intros key r now1 now2 Hr.
    assert (isExpired r now1 = false) as Hexp.
    { unfold isExpired. by rewrite (Hz key r Hr). }
    split; [done|]. exists (touch key w'). rewrite Fetch_run, Hr, Hexp. simpl.
    split; [done|]. apply self_touch.
Qed.

Lemma ttl_disabled_never_expires_witness :
  ∃ errs w',
    run testCalls (mkWorld (mkcache (lru.mkCache 1 []) 0) []) = Done (errs, w') ∧
    ∀ key r now1 now2,
      entryOf key w' = Some (VResource r) →
      isExpired r now1 = false ∧
      ∃ w'', Fetch key now1 now2 w' = Done ((Some r, None), w'') ∧
             evictions w'' = evictions w'.
Proof.
  apply (ttl_disabled_never_expires 1 (mkcache (lru.mkCache 1 []) 0) testCalls).
  reflexivity.
Defined.

(** X1: [NewCache] fails exactly when [ttl] is negative, and then returns no
    cache; otherwise it returns an empty cache with the given bound and
    [ttl], in which [Fetch] of any key fails with the notFound error and
    changes nothing. *)
Theorem NewCache_spec (maxEntries : Z) (ttl0 : time.Duration) :
  (ttl0 < 0 → NewCache maxEntries ttl0 = (None, Some (ErrNegativeTTL ttl0))) ∧
  (0 ≤ ttl0 →
     ∃ c, NewCache maxEntries ttl0 = (Some c, None) ∧
          ttl c = ttl0 ∧ lru.MaxEntries (cache_ c) = maxEntries ∧
          ∀ key now1 now2,
            Fetch key now1 now2 (mkWorld c []) =
            Done ((None, Some (ErrNoValue key)), mkWorld c [])).
Proof.
  unfold NewCache. split; intros Httl.
  - by rewrite (proj2 (Z.ltb_lt _ _) Httl).
  - rewrite (proj2 (Z.ltb_ge _ _) Httl). eexists. split; [done|]. split_and!; [done..|].
    intros key now1 now2. by rewrite Fetch_run.
Qed.

(** X2: on a well-formed cache whose [MaxEntries] is not negative,
    [AddRequest] returns no error and leaves the key present with the handle
    in its requests.  For an absent key the entry has no response, the handle
    alone, and the expiration time of the call; for a present key the handle
    joins the requests, the response and the expiration time stay, no other
    key changes and nothing is evicted. *)
Theorem AddRequest_spec (key : string) (req : Handle) (now : time.Time) (w : world) :
  wf w → 0 ≤ lru.MaxEntries (cache_ (self w)) →
  ∃ w' r' m,
    AddRequest key req now w = Done (None, w') ∧
    entryOf key w' = Some (VResource r') ∧
    Requests r' = Some m ∧ m !! req = Some true ∧
    (entryOf key w = None →
       Resp r' = None ∧ m = {[req := true]} ∧
       ExpirationTime r' = getExpirationTime (self w) now) ∧
    (∀ r, entryOf key w = Some (VResource r) →
       Resp r' = Resp r ∧ ExpirationTime r' = ExpirationTime r ∧
       requestSet (Requests r') = {[req]} ∪ requestSet (Requests r) ∧
       evictions w' = evictions w ∧
       ∀ k, k ≠ key → entryOf k w' = entryOf k w).
Proof.
  intros Hwf Hmax. destruct (entryOf key w) as [v|] eqn:Hv.
  - destruct (entryOf_wf key v w Hwf Hv) as (r & -> & Hr).
    destruct (Requests r) as [m|] eqn:Hm; [|done].
    exists (put key (attach req r) w), (attach req r), (<[req:=true]> m).
    rewrite (AddRequest_present _ _ _ _ r m) by done.
    rewrite entryOf_put, decide_True by done.
    split_and!; try done.
    + unfold attach. by rewrite Hm.
    + apply lookup_insert_eq.
    + intros r0 [= <-]. split_and!; try done.
      * rewrite requestSet_attach by by rewrite Hm. done.
      * intros k Hk. by rewrite entryOf_put, decide_False.
  - destruct (Add_spec key (requested (self w) req now) w)
      as (w' & HAdd & _ & _ & _ & Hkey & _); [done..|].
    exists w', (requested (self w) req now), {[req := true]}.
    rewrite AddRequest_absent by done. unfold mbind, M_bind. rewrite HAdd.
    split_and!; try done.
    + apply Hkey. by right.
    + apply lookup_singleton_eq.
Qed.

Lemma AddRequest_spec_witness :
  ∃ w' r' m,
    AddRequest "key_A" 3%positive 5 twoKeys = Done (None, w') ∧
    entryOf "key_A" w' = Some (VResource r') ∧
    Requests r' = Some m ∧ m !! 3%positive = Some true ∧
    (entryOf "key_A" twoKeys = None →
       Resp r' = None ∧ m = {[3%positive := true]} ∧
       ExpirationTime r' = getExpirationTime (self twoKeys) 5) ∧
    (∀ r, entryOf "key_A" twoKeys = Some (VResource r) →
       Resp r' = Resp r ∧ ExpirationTime r' = ExpirationTime r ∧
       requestSet (Requests r') = {[3%positive]} ∪ requestSet (Requests r) ∧
       evictions w' = evictions twoKeys ∧
       ∀ k, k ≠ "key_A" → entryOf k w' = entryOf k twoKeys).
Proof.
  apply (AddRequest_spec "key_A" 3%positive 5 twoKeys).
  - split.
    + repeat constructor; simpl; eauto.
    + simpl. apply NoDup_cons. split; [|apply NoDup_singleton].
      rewrite list_elem_of_singleton. discriminate.
  - simpl. lia.
Defined.

(** The entry that [c.cache.Add] adds for an absent key is at the front of
    the list. *)
Lemma Add_head key r w w' :
  wf w → Requests r ≠ None → entryOf key w = None →
  0 ≤ lru.MaxEntries (cache_ (self w)) →
  cache_Add key r w = Done ((), w') →
  ∃ rest, entries w' = (KString key, VResource r) :: rest.
Proof.
  intros Hwf Hr Hk Hmax HAdd.
  destruct (Add_absent_cases key r w w' Hwf Hr Hk HAdd)
    as [[_ ->]|[Hfull (l0 & k0 & r0 & Hl0 & ->)]].
  - by eexists.
  - pose proof (full_false_or w Hmax Hfull) as Hne.
    destruct l0 as [|e l0]; simpl in Hl0.
    + injection Hl0 as _ _ Hl0. by destruct (entries w).
    + injection Hl0 as <- _. by eexists.
Qed.

Lemma attach_attach req r : attach req (attach req r) = attach req r.
Proof.
  unfold attach. simpl. destruct (Requests r) as [m|]; simpl; [|done].
  by rewrite insert_insert_eq.
Qed.

Lemma detach_detach req r : detach req (detach req r) = detach req r.
Proof.
  unfold detach. simpl. destruct (Requests r) as [m|]; simpl; [|done].
  by rewrite delete_delete_eq.
Qed.

Lemma detach_attach req r :
  req ∉ requestSet (Requests r) → Requests r ≠ None → detach req (attach req r) = r.
Proof.
  destruct r as [resp [m|] exp]; unfold detach, attach; simpl; [|done].
  intros Hreq _. apply not_elem_of_dom in Hreq.
  by rewrite delete_insert_eq, delete_id.
Qed.

(** X3: [AddRequest] is idempotent.  On a well-formed cache whose
    [MaxEntries] is not negative, a second [AddRequest] of the same handle
    for the same key, at any time, leaves the cache exactly as the first one
    left it: same entries in the same order, same expiration time, no
    eviction. *)
Theorem AddRequest_idempotent (key : string) (req : Handle) (now now' : time.Time)
    (w : world) :
  wf w → 0 ≤ lru.MaxEntries (cache_ (self w)) →
  ∃ w1, AddRequest key req now w = Done (None, w1) ∧
        AddRequest key req now' w1 = Done (None, w1).
Proof.
  intros Hwf Hmax. destruct (entryOf key w) as [v|] eqn:Hv.
  - destruct (entryOf_wf key v w Hwf Hv) as (r & -> & Hr).
    destruct (Requests r) as [m|] eqn:Hm; [|done].
    exists (put key (attach req r) w).
    split; [by apply (AddRequest_present _ _ _ _ r m)|].
    rewrite (AddRequest_present _ _ _ _ (attach req r) (<[req:=true]> m)).
    + by rewrite attach_attach, put_put.
    + by rewrite entryOf_put, decide_True.
    + unfold attach. by rewrite Hm.
  - set (r1 := requested (self w) req now).
    destruct (Add_spec key r1 w) as (w1 & HAdd & Hwf1 & _ & _ & Hkey & _); [done..|].
    destruct (Add_head key r1 w w1) as [rest Hrest]; [done..|].
    exists w1. rewrite AddRequest_absent by done. unfold mbind, M_bind. fold r1.
    rewrite HAdd. split; [done|].
    rewrite (AddRequest_present _ _ _ _ r1 {[req := true]}); [|by apply Hkey; right|done].
    assert (attach req r1 = r1) as ->.
    { unfold attach, r1, requested. simpl. by rewrite <-insert_empty, insert_insert_eq. }
    by rewrite (put_head key r1 rest).
Qed.

Lemma AddRequest_idempotent_witness :
  ∃ w1, AddRequest "key_A" 1%positive 0 (emptyWorld 1 60) = Done (None, w1) ∧
        AddRequest "key_A" 1%positive 100 w1 = Done (None, w1).
Proof.
  apply (AddRequest_idempotent "key_A" 1%positive 0 100 (emptyWorld 1 60)).
  - split; constructor.
  - simpl. lia.
Defined.

(** X4: [AddRequest] followed by [DeleteRequest] of the same handle leaves the
    key present without the handle.  When the key was present and did not
    hold the handle, its entry is as before and the cache is as after a
    [Fetch] hit of the key; when the key was absent, it is now present with
    no response and no request. *)
Theorem AddRequest_DeleteRequest (key : string) (req : Handle) (now : time.Time)
    (w : world) :
  wf w → 0 ≤ lru.MaxEntries (cache_ (self w)) →
  ∃ w1 w2 r2,
    AddRequest key req now w = Done (None, w1) ∧
    DeleteRequest key req w1 = Done (None, w2) ∧
    entryOf key w2 = Some (VResource r2) ∧
    (req ∉ requestSet (Requests r2)) ∧
    (entryOf key w = None → Resp r2 = None ∧ Requests r2 = Some ∅) ∧
    (∀ r, entryOf key w = Some (VResource r) → req ∉ requestSet (Requests r) →
       r2 = r ∧ w2 = touch key w).
Proof.
  intros Hwf Hmax.
  assert (∀ r, req ∉ requestSet (Requests (detach req r))) as Hout.
  { intros r. rewrite requestSet_detach. rewrite elem_of_difference, elem_of_singleton.
    by intros [_ ?]. }
  destruct (entryOf key w) as [v|] eqn:Hv.
  - destruct (entryOf_wf key v w Hwf Hv) as (r & -> & Hr).
    destruct (Requests r) as [m|] eqn:Hm; [|done].
    exists (put key (attach req r) w), (put key (detach req (attach req r)) w),
           (detach req (attach req r)).
    split; [by apply (AddRequest_present _ _ _ _ r m)|].
    split.
    { rewrite (DeleteRequest_present _ _ _ (attach req r)).
      - by rewrite put_put.
      - by rewrite entryOf_put, decide_True. }
    split; [by rewrite entryOf_put, decide_True|]. split; [apply Hout|].
    split; [done|]. intros r0 [= <-] Hreq.
    rewrite detach_attach; [|done|by rewrite Hm]. split; [done|].
    unfold touch, put. by rewrite Hv.
  - set (r1 := requested (self w) req now).
    destruct (Add_spec key r1 w) as (w1 & HAdd & Hwf1 & _ & _ & Hkey & _); [done..|].
    exists w1, (put key (detach req r1) w1), (detach req r1).
    rewrite AddRequest_absent by done. unfold mbind, M_bind. fold r1. rewrite HAdd.
    split; [done|].
    split; [apply DeleteRequest_present; apply Hkey; by right|].
    split; [by rewrite entryOf_put, decide_True|]. split; [apply Hout|].
    split; [|done]. intros _. split; [done|].
    unfold detach, r1, requested. simpl. by rewrite delete_singleton_eq.
Qed.

Lemma AddRequest_DeleteRequest_witness :
  ∃ w1 w2 r2,
    AddRequest "key_A" 1%positive 0 (emptyWorld 1 60) = Done (None, w1) ∧
    DeleteRequest "key_A" 1%positive w1 = Done (None, w2) ∧
    entryOf "key_A" w2 = Some (VResource r2) ∧
    (1%positive ∉ requestSet (Requests r2)) ∧
    (entryOf "key_A" (emptyWorld 1 60) = None → Resp r2 = None ∧ Requests r2 = Some ∅) ∧
    (∀ r, entryOf "key_A" (emptyWorld 1 60) = Some (VResource r) →
       1%positive ∉ requestSet (Requests r) →
       r2 = r ∧ w2 = touch "key_A" (emptyWorld 1 60)).
Proof.
  apply (AddRequest_DeleteRequest "key_A" 1%positive 0 (emptyWorld 1 60)).
  - split; constructor.
  - simpl. lia.
Defined.

(** X5: [DeleteRequest] is idempotent.  On a well-formed cache a second
    [DeleteRequest] of the same handle for the same key returns no error and
    leaves the cache exactly as the first one left it. *)
Theorem DeleteRequest_idempotent (key : string) (req : Handle) (w : world) :
  wf w →
  ∃ w1, DeleteRequest key req w = Done (None, w1) ∧
        DeleteRequest key req w1 = Done (None, w1).
Proof.
  intros Hwf. destruct (entryOf key w) as [v|] eqn:Hv.
  - destruct (entryOf_wf key v w Hwf Hv) as (r & -> & Hr).
    exists (put key (detach req r) w).
    split; [by apply DeleteRequest_present|].
    rewrite (DeleteRequest_present _ _ _ (detach req r)).
    + by rewrite detach_detach, put_put.
    + by rewrite entryOf_put, decide_True.
  - exists w. by rewrite DeleteRequest_absent.
Qed.

Lemma DeleteRequest_idempotent_witness :
  ∃ w1, DeleteRequest "key_A" 1%positive twoKeys = Done (None, w1) ∧
        DeleteRequest "key_A" 1%positive w1 = Done (None, w1).
Proof.
  apply (DeleteRequest_idempotent "key_A" 1%positive twoKeys).
  split.
  - repeat constructor; simpl; eauto.
  - simpl. apply NoDup_cons. split; [|apply NoDup_singleton].
    rewrite list_elem_of_singleton. discriminate.
Defined.

(** ** Recency and eviction *)

Lemma effect_config key w w' :
  wf w → effect key w w' →
  ttl (self w') = ttl (self w) ∧
  lru.MaxEntries (cache_ (self w')) = lru.MaxEntries (cache_ (self w)).
Proof.
  intros Hwf [->|r Hr ->|r r' Hr Hd ->|r' Hk Hc HAdd]; [|done..|].
  - by destruct (self_touch key w) as (-> & -> & _).
  - destruct (Add_spec key r' w Hwf (created_made _ _ Hc)) as (w'' & HAdd' & _ & Hself & _).
    rewrite HAdd in HAdd'. injection HAdd' as <-. by rewrite Hself.
Qed.

(** After a call that leaves its key in the cache, the entry of the key is
    at the front of the list. *)
Lemma effect_head key w w' v :
  wf w → effect key w w' → entryOf key w' = Some v →
  ∃ rest, entries w' = (KString key, v) :: rest.
Proof.
  intros Hwf [->|r Hr ->|r r' Hr Hd ->|r' Hk Hc HAdd].
  - rewrite entryOf_touch. intros Hv. unfold touch. rewrite Hv. by eexists.
  - rewrite entryOf_evict. by rewrite decide_True.
  - rewrite entryOf_put, decide_True by done. intros [= <-]. by eexists.
  - destruct (Add_absent_cases key r' w w' Hwf (created_made _ _ Hc) Hk HAdd)
      as [[_ ->]|[_ (l0 & k0 & r0 & Hl0 & ->)]].
    + rewrite entryOf_put, decide_True by done. intros [= <-]. by eexists.
    + unfold entryOf, entries. simpl. destruct l0 as [|e0 l0]; [done|].
      injection Hl0 as <- _. simpl. rewrite decide_True by done. intros [= <-].
      by eexists.
Qed.

Lemma Add_keeps_front key key2 v r2 rest w w' :
  wf w → Requests r2 ≠ None → entryOf key2 w = None →
  entries w = (KString key, v) :: rest →
  lru.MaxEntries (cache_ (self w)) = 0 ∨ 2 ≤ lru.MaxEntries (cache_ (self w)) →
  cache_Add key2 r2 w = Done ((), w') →
  entryOf key w' = Some v.
Proof.
  intros Hwf Hr2 Hk2 Hhead Hmax HAdd.
  assert (key2 ≠ key) as Hne.
  { intros ->. unfold entryOf in Hk2. rewrite Hhead in Hk2. simpl in Hk2.
    by rewrite decide_True in Hk2. }
  destruct (Add_absent_cases key2 r2 w w' Hwf Hr2 Hk2 HAdd)
    as [[_ ->]|[Hfull (l0 & k0 & r0 & Hl0 & ->)]].
  - rewrite entryOf_put, decide_False by done.
    unfold entryOf. rewrite Hhead. simpl. by rewrite decide_True.
  - unfold full in Hfull. rewrite Hhead in Hfull, Hl0. simpl in Hfull.
    apply andb_true_iff in Hfull as [H1 H2].
    apply negb_true_iff, Z.eqb_neq in H1. apply Z.ltb_lt in H2.
    destruct l0 as [|e0 [|e1 l0]]; simpl in Hl0.
    + by injection Hl0.
    + injection Hl0 as _ _ Hrest. destruct rest; [|done]. simpl in H2. lia.
    + injection Hl0 as <- <- _. unfold entryOf, entries. simpl.
      rewrite decide_False by congruence. by rewrite decide_True.
Qed.

(** X7: the key of the last call is not the victim of the next one.  When
    [MaxEntries] is 0 or at least 2, a call about another key leaves the
    key of the call before it as that call left it: present with the same
    value, or absent. *)
Theorem recently_used_survives (c1 c2 : call) (w w1 w2 : world)
    (e1 e2 : option error) :
  wf w →
  lru.MaxEntries (cache_ (self w)) = 0 ∨ 2 ≤ lru.MaxEntries (cache_ (self w)) →
  exec c1 w = Done (e1, w1) →
  keyOf c2 ≠ keyOf c1 →
  exec c2 w1 = Done (e2, w2) →
  entryOf (keyOf c1) w2 = entryOf (keyOf c1) w1.
Proof.
  intros Hwf Hmax H1 Hne H2.
  pose proof (exec_effect c1 w e1 w1 Hwf H1) as Heff1.
  assert (wf w1) as Hwf1.
  { destruct (exec_wf c1 w Hwf) as (? & ? & Hexec & _ & ?). rewrite H1 in Hexec.
    by injection Hexec as <- <-. }
  destruct (effect_config _ _ _ Hwf Heff1) as [_ HM]. rewrite <-HM in Hmax.
  pose proof (exec_effect c2 w1 e2 w2 Hwf1 H2) as [->|r Hr ->|r r' Hr Hd ->|r' Hk Hc HAdd].
  - apply entryOf_touch.
  - by rewrite entryOf_evict, decide_False.
  - by rewrite entryOf_put, decide_False.
  - destruct (entryOf (keyOf c1) w1) as [v|] eqn:Hv.
    + destruct (effect_head _ _ _ v Hwf Heff1 Hv) as [rest Hrest].
      eapply Add_keeps_front; eauto using created_made.
    + destruct (Add_spec (keyOf c2) r' w1 Hwf1 (created_made _ _ Hc))
        as (w'' & HAdd' & _ & _ & Hframe & _).
      rewrite HAdd in HAdd'. injection HAdd' as <-.
      destruct (entryOf (keyOf c1) w2) as [v'|] eqn:Hv'; [|done].
      specialize (Hframe _ _ Hv'). rewrite decide_False in Hframe by done. congruence.
Qed.

Lemma recently_used_survives_witness :
  ∃ w1 w2,
    exec (CallFetch "key_A" 1 1) twoKeys = Done (None, w1) ∧
    exec (CallAddRequest "key_C" 4%positive 2) w1 = Done (None, w2) ∧
    entryOf "key_A" w2 = entryOf "key_A" w1.
Proof.
  exists (touch "key_A" twoKeys). eexists.
  split; [reflexivity|]. split; [vm_compute; reflexivity|].
  apply (recently_used_survives (CallFetch "key_A" 1 1) (CallAddRequest "key_C" 4%positive 2)
           twoKeys (touch "key_A" twoKeys) _ None None).
  - split.
    + repeat constructor; simpl; eauto.
    + simpl. apply NoDup_cons. split; [|apply NoDup_singleton].
      rewrite list_elem_of_singleton. discriminate.
  - right. simpl. lia.
  - reflexivity.
  - discriminate.
  - vm_compute. reflexivity.
Defined.

Lemma NoDup_snoc_keys (l : list (Key * Value)) k v :
  NoDup (l ++ [(k, v)]).*1 → lru.lookup k l = None.
Proof.
  rewrite fmap_app. simpl. intros Hnd. apply NoDup_app in Hnd as (_ & Hdisj & _).
  apply lookup_None_keys. intros Hin. apply (Hdisj _ Hin). apply list_elem_of_here.
Qed.

(** X8: the eviction callback accounts for every removal.  A call on a
    well-formed cache whose [MaxEntries] is not negative evicts at most one
    entry; the callback receives a key with a value exactly when the key held
    this value before the call and is absent after it; and no key other than
    the key of the call gets a value or a new value. *)
Theorem evictions_accounted (c : call) (w w' : world) (e : option error) :
  wf w → 0 ≤ lru.MaxEntries (cache_ (self w)) →
  exec c w = Done (e, w') →
  ∃ new,
    evictions w' = evictions w ++ new ∧
    (length new ≤ 1)%nat ∧
    (∀ k r, (k, r) ∈ new ↔ entryOf k w = Some (VResource r) ∧ entryOf k w' = None) ∧
    (∀ k v, k ≠ keyOf c → entryOf k w' = Some v → entryOf k w = Some v).
Proof.
  intros Hwf Hmax Hexec.
  assert (∀ key r', is_Some (entryOf key w) ∨ True →
    evictions (put key r' w) = evictions w ++ [] ∧
    (length (@nil (string * Resource)) ≤ 1)%nat ∧
    (∀ k r, (k, r) ∈ @nil (string * Resource) ↔
            entryOf k w = Some (VResource r) ∧ entryOf k (put key r' w) = None) ∧
    (∀ k v, k ≠ key → entryOf k (put key r' w) = Some v → entryOf k w = Some v)) as Hput.
  { intros key r' _. split; [by rewrite app_nil_r|]. split; [simpl; lia|]. split.
    - intros k r. split; [by intros ?%not_elem_of_nil|].
      rewrite entryOf_put. case_decide; [by intros [_ ?]|]. intros [-> ?]. done.
    - intros k v Hk. by rewrite entryOf_put, decide_False. }
  destruct (exec_effect c w e w' Hwf Hexec) as [->|r Hr ->|r r' Hr Hd ->|r' Hk Hc HAdd].
  - exists []. split; [destruct (self_touch (keyOf c) w) as (_ & _ & ->); by rewrite app_nil_r|].
    split; [simpl; lia|]. split.
    + intros k r. split; [by intros ?%not_elem_of_nil|].
      rewrite entryOf_touch. intros [-> ?]. done.
    + intros k v _. by rewrite entryOf_touch.
  - exists [(keyOf c, r)]. split; [done|]. split; [simpl; lia|]. split.
    + intros k r0. rewrite list_elem_of_singleton, entryOf_evict. split.
      * intros [= -> ->]. by rewrite decide_True.
      * case_decide as Hk; [|by intros [-> ?]]. subst k. rewrite Hr. by intros [[= ->] _].
    + intros k v Hk. by rewrite entryOf_evict, decide_False.
  - exists []. apply Hput. by right.
  - destruct (Add_absent_cases (keyOf c) r' w w' Hwf (created_made _ _ Hc) Hk HAdd)
      as [[_ ->]|[Hfull (l0 & k0 & r0 & Hl0 & ->)]].
    + exists []. apply Hput. by right.
    + pose proof (full_false_or w Hmax Hfull) as Hne.
      destruct l0 as [|e0 l0]; simpl in Hl0.
      { injection Hl0 as _ _ Hl0. by destruct (entries w). }
      injection Hl0 as <- Hw.
      assert (lru.lookup (KString k0) l0 = None) as Hk0.
      { apply (NoDup_snoc_keys l0 _ (VResource r0)). rewrite <-Hw. apply Hwf. }
      assert (k0 ≠ keyOf c) as Hk0c.
      { intros ->. unfold entryOf in Hk. rewrite Hw in Hk.
        apply lookup_None_keys in Hk. apply Hk. rewrite fmap_app.
        apply elem_of_app. right. apply list_elem_of_here. }
      assert (∀ k, entryOf k w = (if decide (k = k0) then Some (VResource r0)
                                  else lru.lookup (KString k) l0)) as Hold.
      { intros k. unfold entryOf. case_decide as Hkk.
        - subst k. apply lookup_elem_NoDup; [apply Hwf|]. rewrite Hw.
          apply elem_of_app. right. apply list_elem_of_here.
        - destruct (lru.lookup (KString k) l0) as [v|] eqn:Hl.
          + apply lookup_elem_NoDup; [apply Hwf|]. rewrite Hw.
            apply elem_of_app. left. by apply lookup_Some_elem.
          + apply lookup_None_keys. rewrite Hw, fmap_app. simpl.
            rewrite not_elem_of_app, list_elem_of_singleton.
            split; [by apply lookup_None_keys|congruence]. }
      assert (∀ k, entryOf k (mkWorld (self (set_ll ((KString (keyOf c), VResource r') :: l0) w))
                                      (evictions w ++ [(k0, r0)]))
                   = if decide (keyOf c = k) then Some (VResource r')
                     else lru.lookup (KString k) l0) as Hnew.
      { intros k. unfold entryOf, entries. simpl.
        destruct (decide (KString (keyOf c) = KString k)) as [[= ->]|Hkk].
        - by rewrite decide_True.
        - rewrite decide_False by congruence. done. }
      exists [(k0, r0)]. split; [done|]. split; [simpl; lia|]. split.
      * intros k r. rewrite list_elem_of_singleton, Hold, Hnew. split.
        -- intros [= -> ->]. rewrite decide_True by done.
           rewrite decide_False by done. done.
        -- case_decide as Hkk; [|intros [-> H]; by case_decide].
           subst k. by intros [[= ->] _].
      * intros k v Hkc. rewrite Hold, Hnew. rewrite decide_False by done.
        case_decide as Hkk; [|done]. subst k. by rewrite Hk0.
Qed.

Lemma evictions_accounted_witness :
  let w' := mkWorld (mkcache (lru.mkCache 2
                      [(KString "key_C", VResource (requested (self twoKeys) 4%positive 0));
                       (KString "key_B", VResource resourceB)]) 60)
                    [("key_A", resourceA)] in
  ∃ new,
    evictions w' = evictions twoKeys ++ new ∧
    (length new ≤ 1)%nat ∧
    (∀ k r, (k, r) ∈ new ↔
            entryOf k twoKeys = Some (VResource r) ∧ entryOf k w' = None) ∧
    (∀ k v, k ≠ keyOf (CallAddRequest "key_C" 4%positive 0) →
            entryOf k w' = Some v → entryOf k twoKeys = Some v).
Proof.
  apply (evictions_accounted (CallAddRequest "key_C" 4%positive 0) twoKeys _ None).
  - split.
    + repeat constructor; simpl; eauto.
    + simpl. apply NoDup_cons. split; [|apply NoDup_singleton].
      rewrite list_elem_of_singleton. discriminate.
  - simpl. lia.
  - vm_compute. reflexivity.
Defined.

(** ** Deadlines *)

Lemma isExpired_deadline r deadline t :
  ExpirationTime r = deadline → deadline ≠ 0 →
  isExpired r t = bool_decide (deadline < t).
Proof.
  intros Hd Hz. unfold isExpired, time.IsZero, time.Before. rewrite Hd.
  rewrite (proj2 (Z.eqb_neq _ _) Hz). case_bool_decide.
  - by apply Z.ltb_lt.
  - by apply Z.ltb_ge, Z.nlt_ge.
Qed.

Lemma getExpirationTime_enabled c now :
  0 < ttl c → getExpirationTime c now = now + ttl c.
Proof.
  intros Httl. unfold getExpirationTime, time.Add. by rewrite (proj2 (Z.ltb_lt _ _) Httl).
Qed.

(** X10: the life of a response.  With [ttl > 0], a response set at [now]
    whose deadline [now + ttl] is not the zero time is returned by [Fetch]
    at every time up to the deadline, the deadline included, and is evicted
    by a [Fetch] made after it, which returns no entry and no error. *)
Theorem response_lifetime (key : string) (response : DiscoveryResponse)
    (now t1 t2 : time.Time) (w : world) :
  wf w → 0 ≤ lru.MaxEntries (cache_ (self w)) →
  0 < ttl (self w) → now + ttl (self w) ≠ 0 → t1 ≤ t2 →
  ∃ requests w1 r',
    SetResponse key response now w = Done ((requests, None), w1) ∧
    entryOf key w1 = Some (VResource r') ∧ Resp r' = Some response ∧
    (t1 ≤ now + ttl (self w) →
       ∃ w2, Fetch key t1 t2 w1 = Done ((Some r', None), w2) ∧
             entryOf key w2 = Some (VResource r')) ∧
    (now + ttl (self w) < t1 →
       ∃ w2, Fetch key t1 t2 w1 = Done ((None, None), w2) ∧
             entryOf key w2 = None ∧
             evictions w2 = evictions w1 ++ [(key, r')]).
Proof.
  intros Hwf Hmax Httl Hz Ht.
  assert (∃ requests requests' w1,
    SetResponse key response now w = Done ((requests, None), w1) ∧
    entryOf key w1 = Some (VResource (responded (self w) response requests' now)))
    as (requests & requests' & w1 & HS & Hkey).
  { destruct (entryOf key w) as [v|] eqn:Hv.
    - destruct (entryOf_wf key v w Hwf Hv) as (r & -> & Hr).
      eexists _, _, _. rewrite (SetResponse_present _ _ _ _ r) by done.
      split; [done|]. by rewrite entryOf_put, decide_True.
    - destruct (Add_spec key (responded (self w) response (Some ∅) now) w)
        as (w1 & HAdd & _ & _ & _ & Hkey & _); [done..|].
      eexists _, _, w1. rewrite SetResponse_absent by done.
      unfold mbind, M_bind. rewrite HAdd. split; [done|]. apply Hkey. by right. }
  set (r' := responded (self w) response requests' now) in *.
  assert (∀ t, isExpired r' t = bool_decide (now + ttl (self w) < t)) as Hexp.
  { intros t. apply isExpired_deadline; [|done]. by apply getExpirationTime_enabled. }
  exists requests, w1, r'. split_and!; [done..| |].
  - intros Hle. exists (touch key w1). rewrite Fetch_run, Hkey, !Hexp.
    rewrite (bool_decide_eq_false_2 (now + ttl (self w) < t1)) by lia. simpl.
    split; [done|]. by rewrite entryOf_touch.
  - intros Hlt. exists (evict key r' w1). rewrite Fetch_run, Hkey, !Hexp.
    rewrite !bool_decide_eq_true_2 by lia. simpl.
    split; [done|]. split; [|done]. by rewrite entryOf_evict, decide_True.
Qed.

Lemma response_lifetime_witness :
  ∃ requests w1 r',
    SetResponse "key_A" testDiscoveryResponse 5 (emptyWorld 1 10)
      = Done ((requests, None), w1) ∧
    entryOf "key_A" w1 = Some (VResource r') ∧ Resp r' = Some testDiscoveryResponse ∧
    (15 ≤ 5 + ttl (self (emptyWorld 1 10)) →
       ∃ w2, Fetch "key_A" 15 16 w1 = Done ((Some r', None), w2) ∧
             entryOf "key_A" w2 = Some (VResource r')) ∧
    (5 + ttl (self (emptyWorld 1 10)) < 15 →
       ∃ w2, Fetch "key_A" 15 16 w1 = Done ((None, None), w2) ∧
             entryOf "key_A" w2 = None ∧
             evictions w2 = evictions w1 ++ [("key_A", r')]).
Proof.
  apply (response_lifetime "key_A" testDiscoveryResponse 5 15 16 (emptyWorld 1 10)).
  - split; constructor.
  - simpl. lia.
  - simpl. lia.
  - simpl. lia.
  - lia.
Defined.

(** X11: [AddRequest] does not save an expired entry.  Whenever it is made,
    [AddRequest] on an entry keeps the deadline, so a [Fetch] that finds the
    entry expired evicts it together with the new handle, which the eviction
    callback receives. *)
Theorem AddRequest_keeps_deadline (key : string) (req : Handle)
    (now t1 t2 : time.Time) (w : world) (r : Resource) :
  entryOf key w = Some (VResource r) → Requests r ≠ None →
  isExpired r t1 = true → isExpired r t2 = true →
  ∃ w1 w2 r1,
    AddRequest key req now w = Done (None, w1) ∧
    entryOf key w1 = Some (VResource r1) ∧
    req ∈ requestSet (Requests r1) ∧
    Fetch key t1 t2 w1 = Done ((None, None), w2) ∧
    entryOf key w2 = None ∧
    evictions w2 = evictions w ++ [(key, r1)].
Proof.
  intros Hv Hr H1 H2. destruct (Requests r) as [m|] eqn:Hm; [|done].
  exists (put key (attach req r) w), (evict key (attach req r) (put key (attach req r) w)),
         (attach req r).
  assert (entryOf key (put key (attach req r) w) = Some (VResource (attach req r))) as Hput
    by (by rewrite entryOf_put, decide_True).
  split_and!; [by apply (AddRequest_present _ _ _ _ r m)|done| | | |done].
  - rewrite requestSet_attach by by rewrite Hm.
    apply elem_of_union. left. by apply elem_of_singleton.
  - rewrite Fetch_run, Hput.
    assert (∀ t, isExpired (attach req r) t = isExpired r t) as Hsame by done.
    by rewrite !Hsame, H1, H2.
  - by rewrite entryOf_evict, decide_True.
Qed.

Lemma AddRequest_keeps_deadline_witness :
  ∃ w1 w2 r1,
    AddRequest "key_A" 7%positive 0 expiringWorld = Done (None, w1) ∧
    entryOf "key_A" w1 = Some (VResource r1) ∧
    7%positive ∈ requestSet (Requests r1) ∧
    Fetch "key_A" 11 12 w1 = Done ((None, None), w2) ∧
    entryOf "key_A" w2 = None ∧
    evictions w2 = evictions expiringWorld ++ [("key_A", r1)].
Proof.
  apply (AddRequest_keeps_deadline "key_A" 7%positive 0 11 12 expiringWorld expiringResource).
  - reflexivity.
  - discriminate.
  - reflexivity.
  - reflexivity.
Defined.

(** X12: [SetResponse] returns the handles that wait for the key.  After
    [AddRequest] of a handle, [SetResponse] for the key returns a map that
    holds this handle and the handles attached before, each with [true], and
    nothing else; the entry keeps them with the new response. *)
Theorem SetResponse_returns_requests (key : string) (req : Handle)
    (response : DiscoveryResponse) (now now' : time.Time) (w : world) :
  wf w → 0 ≤ lru.MaxEntries (cache_ (self w)) →
  ∃ w1 w2 m r2,
    AddRequest key req now w = Done (None, w1) ∧
    SetResponse key response now' w1 = Done ((Some m, None), w2) ∧
    m !! req = Some true ∧
    (∀ h, h ∈ dom m ↔ h = req ∨ attached h key w) ∧
    entryOf key w2 = Some (VResource r2) ∧
    Requests r2 = Some m ∧ Resp r2 = Some response.
Proof.
  intros Hwf Hmax.
  assert (∃ w1 r1 m,
    AddRequest key req now w = Done (None, w1) ∧
    entryOf key w1 = Some (VResource r1) ∧ Requests r1 = Some m ∧
    m !! req = Some true ∧ (∀ h, h ∈ dom m ↔ h = req ∨ attached h key w))
    as (w1 & r1 & m & HA & Hkey & Hm & Hreq & Hdom).
  { destruct (entryOf key w) as [v|] eqn:Hv.
    - destruct (entryOf_wf key v w Hwf Hv) as (r & -> & Hr).
      destruct (Requests r) as [m|] eqn:Hm; [|done].
      exists (put key (attach req r) w), (attach req r), (<[req:=true]> m).
      split; [by apply (AddRequest_present _ _ _ _ r m)|].
      split; [by rewrite entryOf_put, decide_True|].
      split; [unfold attach; by rewrite Hm|]. split; [apply lookup_insert_eq|].
      intros h. rewrite dom_insert_L, elem_of_union, elem_of_singleton.
      unfold attached. rewrite Hv. split.
      + intros [->|Hh]; [by left|right]. exists r. by rewrite Hm.
      + intros [->|(r0 & [= <-] & Hh)]; [by left|right]. by rewrite Hm in Hh.
    - destruct (Add_spec key (requested (self w) req now) w)
        as (w1 & HAdd & _ & _ & _ & Hkey & _); [done..|].
      exists w1, (requested (self w) req now), {[req := true]}.
      rewrite AddRequest_absent by done. unfold mbind, M_bind. rewrite HAdd.
      split; [done|]. split; [apply Hkey; by right|]. split; [done|].
      split; [apply lookup_singleton_eq|].
      intros h. rewrite dom_singleton_L, elem_of_singleton. unfold attached. rewrite Hv.
      split; [by left|]. by intros [->|(? & [=] & _)]. }
  exists w1, (put key (responded (self w1) response (Requests r1) now') w1), m,
         (responded (self w1) response (Requests r1) now').
  rewrite (SetResponse_present _ _ _ _ r1) by done. rewrite Hm.
  split_and!; try done. by rewrite entryOf_put, decide_True.
Qed.

Lemma SetResponse_returns_requests_witness :
  ∃ w1 w2 m r2,
    AddRequest "key_A" 3%positive 0 twoKeys = Done (None, w1) ∧
    SetResponse "key_A" testDiscoveryResponse 1 w1 = Done ((Some m, None), w2) ∧
    m !! 3%positive = Some true ∧
    (∀ h, h ∈ dom m ↔ h = 3%positive ∨ attached h "key_A" twoKeys) ∧
    entryOf "key_A" w2 = Some (VResource r2) ∧
    Requests r2 = Some m ∧ Resp r2 = Some testDiscoveryResponse.
Proof.
  apply (SetResponse_returns_requests "key_A" 3%positive testDiscoveryResponse 0 1 twoKeys).
  - split.
    + repeat constructor; simpl; eauto.
    + simpl. apply NoDup_cons. split; [|apply NoDup_singleton].
      rewrite list_elem_of_singleton. discriminate.
  - simpl. lia.
Defined.

Lemma full_unbounded w : lru.MaxEntries (cache_ (self w)) = 0 → full w = false.
Proof. unfold full. by intros ->. Qed.

(** X13: zero means no limit.  In a cache with [MaxEntries = 0], [SetResponse],
    [AddRequest] and [DeleteRequest] evict nothing and remove no key, expired
    or not: the eviction callback is called by [Fetch] alone. *)
Theorem unbounded_never_evicts (c : call) (w w' : world) (e : option error) :
  wf w → lru.MaxEntries (cache_ (self w)) = 0 → isFetch c = false →
  exec c w = Done (e, w') →
  e = None ∧ evictions w' = evictions w ∧
  lru.MaxEntries (cache_ (self w')) = 0 ∧
  ∀ k, is_Some (entryOf k w) → is_Some (entryOf k w').
Proof.
  intros Hwf Hmax Hc.
  assert (∀ key r', e = None → w' = put key r' w →
    e = None ∧ evictions w' = evictions w ∧
    lru.MaxEntries (cache_ (self w')) = 0 ∧
    ∀ k, is_Some (entryOf k w) → is_Some (entryOf k w')) as Hput.
  { intros key r' -> ->. split_and!; [done..|]. intros k Hk.
    rewrite entryOf_put. by case_decide. }
  destruct c as [key now1 now2|key now1 now2|key response now|key req now|key req];
    try done; simpl; unfold mbind, M_bind.
  - destruct (entryOf key w) as [v|] eqn:Hv.
    + destruct (entryOf_wf key v w Hwf Hv) as (r & -> & Hr).
      rewrite (SetResponse_present _ _ _ _ r) by done. intros [= <- <-]. by eapply Hput.
    + rewrite SetResponse_absent by done. unfold mbind, M_bind.
      rewrite Add_absent_room by auto using full_unbounded.
      intros [= <- <-]. by eapply Hput.
  - destruct (entryOf key w) as [v|] eqn:Hv.
    + destruct (entryOf_wf key v w Hwf Hv) as (r & -> & Hr).
      destruct (Requests r) as [m|] eqn:Hm; [|done].
      rewrite (AddRequest_present _ _ _ _ r m) by done. intros [= <- <-]. by eapply Hput.
    + rewrite AddRequest_absent by done. unfold mbind, M_bind.
      rewrite Add_absent_room by auto using full_unbounded.
      intros [= <- <-]. by eapply Hput.
  - destruct (entryOf key w) as [v|] eqn:Hv.
    + destruct (entryOf_wf key v w Hwf Hv) as (r & -> & Hr).
      rewrite (DeleteRequest_present _ _ _ r) by done. intros [= <- <-]. by eapply Hput.
    + rewrite DeleteRequest_absent by done. by intros [= <- <-].
Qed.

Lemma unbounded_never_evicts_witness :
  let w' := put "key_A" (responded (self expiringWorld0) testDiscoveryResponse (Some ∅) 99)
                expiringWorld0 in
  @None error = None ∧ evictions w' = evictions expiringWorld0 ∧
  lru.MaxEntries (cache_ (self w')) = 0 ∧
  ∀ k, is_Some (entryOf k expiringWorld0) → is_Some (entryOf k w').
Proof.
  apply (unbounded_never_evicts (CallSetResponse "key_A" testDiscoveryResponse 99)
           expiringWorld0 _ None).
  - split.
    + repeat constructor; simpl; eauto.
    + simpl. apply NoDup_singleton.
  - reflexivity.
  - reflexivity.
  - reflexivity.
Defined.
